(** * Wallpaper ingestion: image codec adapter, storage selector and upload
      controller

    A shallow embedding of
      - [ImageProcessingService]  (src/services/ImageProcessingService.ts),
      - [StorageFactory], [CloudinaryService], [S3Service]
        (src/services/storage/),
      - [WallpaperController.create] (src/controllers/category.controller.ts),
    together with the properties of the ingestion pipeline stated in the
    specification.

    JavaScript numbers that the code only uses as integers (pixel sizes, byte
    counts, row ids) are [Z]; the channel means reported by the codec are
    rationals ([Q]: every finite double is one).  A rejected promise or a
    thrown exception is the left summand of [exn + A]. *)

From Stdlib Require Import List String Ascii ZArith QArith Qround Lia Lqa Bool.
From Stdlib Require Import DecimalString.
From Stdlib Require DecimalPos DecimalZ.
Import ListNotations.

Open Scope string_scope.
Open Scope Z_scope.

(* ------------------------------------------------------------------ *)
(** ** JavaScript primitives used by the code *)

Module Js.

(** [x || d] on an optional number: [undefined], [0] (and [NaN]) are falsy. *)
Definition or_num (x : option Z) (d : Z) : Z :=
  match x with
  | Some v => if v =? 0 then d else v
  | None => d
  end.

(** [x || d] on an optional string: [undefined] and [''] are falsy. *)
Definition or_str (x : option string) (d : string) : string :=
  match x with
  | Some "" => d
  | Some v => v
  | None => d
  end.

(** Truthiness of a number. *)
Definition truthy (v : Z) : bool := negb (v =? 0).

(** Template-literal rendering of an integer. *)
Definition string_of_Z (n : Z) : string :=
  NilZero.string_of_int (Z.to_int n).

Definition hex_digit (d : Z) : ascii :=
  if d <? 10 then ascii_of_nat (Z.to_nat (48 + d))
  else ascii_of_nat (Z.to_nat (87 + d)).

Fixpoint hex_digits (fuel : nat) (n : Z) (acc : string) : string :=
  match fuel with
  | O => acc
  | S fuel' =>
      let acc' := String (hex_digit (n mod 16)) acc in
      if n / 16 =? 0 then acc' else hex_digits fuel' (n / 16) acc'
  end.

(** [n.toString(16)] for an integer [n]. *)
Definition toString16 (n : Z) : string :=
  let m := Z.abs n in
  let digits := hex_digits (S (Z.to_nat (Z.log2 m))) m "" in
  if n <? 0 then String "-" digits else digits.

Fixpoint repeat_char (c : ascii) (n : nat) : string :=
  match n with
  | O => ""
  | S n' => String c (repeat_char c n')
  end.

(** [s.padStart(len, c)] with a one-character filler. *)
Definition padStart (len : nat) (c : ascii) (s : string) : string :=
  repeat_char c (len - String.length s) ++ s.

(** [Math.round]: nearest integer, ties towards +infinity. *)
Definition round (q : Q) : Z := Qfloor (q + (1 # 2))%Q.

(** [(num / den).toFixed(2)] for integers [num] and [den > 0] whose quotient
    is exactly representable (the code divides by [1024 * 1024]): the
    integer [n] with [n / 100] closest to the quotient, the larger one on a
    tie, the sign handled apart as ECMAScript prescribes. *)
Definition toFixed2 (num den : Z) : string :=
  let a := Z.abs num in
  let n := (200 * a + den) / (2 * den) in
  let body :=
    string_of_Z (n / 100) ++ "." ++
    padStart 2 "0" (string_of_Z (n mod 100)) in
  if num <? 0 then String "-" body else body.

(** [xs.join(sep)]. *)
Fixpoint join (sep : string) (xs : list string) : string :=
  match xs with
  | [] => ""
  | [x] => x
  | x :: rest => x ++ sep ++ join sep rest
  end.

(** [xs.includes(x)]. *)
Definition includes (xs : list string) (x : string) : bool :=
  existsb (String.eqb x) xs.

Definition lower_char (c : ascii) : ascii :=
  let n := nat_of_ascii c in
  if ((65 <=? n) && (n <=? 90))%nat then ascii_of_nat (n + 32) else c.

(** [s.toLowerCase()] on the ASCII range. *)
Fixpoint toLowerCase (s : string) : string :=
  match s with
  | EmptyString => EmptyString
  | String c rest => String (lower_char c) (toLowerCase rest)
  end.

(** The class [\s] on the ASCII range. *)
Definition is_space (c : ascii) : bool :=
  let n := nat_of_ascii c in
  ((n =? 32) || ((9 <=? n) && (n <=? 13)))%nat.

(** [s.replace(/\s+/g, '-')]: [in_run] tells that the previous character
    was white space, whose run has already been replaced. *)
Fixpoint replace_spaces (in_run : bool) (s : string) : string :=
  match s with
  | EmptyString => EmptyString
  | String c rest =>
      if is_space c
      then if in_run then replace_spaces true rest
           else String "-" (replace_spaces true rest)
      else String c (replace_spaces false rest)
  end.

End Js.

(* ------------------------------------------------------------------ *)
(** ** Exceptions and buffers *)

Inductive ErrorKind :=
| CodecFailure       (* thrown by sharp *)
| ProviderFailure    (* thrown by the Cloudinary or S3 client *)
| DatabaseFailure    (* thrown by the connection pool *)
| TypeError
| SyntaxError.

Record exn := mkExn { kind : ErrorKind; message : string }.

Definition Buffer := list Byte.byte.

Definition buffer_length (b : Buffer) : Z := Z.of_nat (List.length b).

Definition is_ok {A} (r : exn + A) : bool :=
  match r with inr _ => true | inl _ => false end.

(* ------------------------------------------------------------------ *)
(** ** The sharp library, as the code uses it *)

Inductive Fit := Cover | Contain | Fill | Inside | Outside.

Inductive Encoder := Jpeg | Png | Webp.

Record Metadata := mkMetadata {
  md_width : option Z;
  md_height : option Z;
  md_format : option string
}.

(** [sharp(buf).resize(w, h, {fit, position: 'center'})], optionally followed
    by [.jpeg({quality})], [.png({quality})] or [.webp({quality})]. *)
Record Pipeline := mkPipeline {
  p_width : Z;
  p_height : Z;
  p_fit : Fit;
  p_encoder : option (Encoder * Z)
}.

Record ChannelStats := mkChannel { mean : Q }.

Record Stats := mkStats { channels : list ChannelStats }.

(** The three entry points of sharp the service calls.  Each is a function
    of the buffer: the library is deterministic. *)
Record Sharp := mkSharp {
  sharp_metadata : Buffer -> exn + Metadata;
  sharp_toBuffer : Buffer -> Pipeline -> exn + Buffer;
  sharp_stats : Buffer -> exn + Stats
}.

(* ------------------------------------------------------------------ *)
(** ** ImageProcessingService *)

Record ResolutionConfig := mkRes {
  name : string;
  width : Z;
  height : Z
}.

Record ProcessedImage := mkProcessed {
  pi_buffer : Buffer;
  pi_width : Z;
  pi_height : Z;
  pi_format : string;
  pi_size : Z
}.

(** The [options] argument of [resize].  TypeScript restricts [format] to
    'jpeg' | 'png' | 'webp'; the type is erased at run time, where the field
    is any string. *)
Record ResizeOptions := mkResizeOptions {
  ro_quality : option Z;
  ro_format : option string;
  ro_fit : option Fit
}.

Record ValidateOptions := mkValidateOptions {
  maxWidth : option Z;
  maxHeight : option Z;
  maxSize : option Z;
  allowedFormats : option (list string)
}.

Record ValidationResult := mkValidation {
  valid : bool;
  errors : list string
}.

Definition RESOLUTIONS : list ResolutionConfig :=
  [ mkRes "1080p" 1920 1080;
    mkRes "1440p" 2560 1440;
    mkRes "4K" 3840 2160;
    mkRes "5K" 5120 2880;
    mkRes "Mobile HD" 1080 1920;
    mkRes "Mobile 2K" 1440 2560;
    mkRes "Tablet" 1536 2048;
    mkRes "Thumbnail" 400 300;
    mkRes "Medium" 800 600 ].

(** The format-specific step of [resize]: an encoder is installed for the
    three known names, nothing is done for any other string. *)
Definition encoder_of (format : string) (quality : Z) : option (Encoder * Z) :=
  if (format =? "jpeg")%string then Some (Jpeg, quality)
  else if (format =? "png")%string then Some (Png, quality)
  else if (format =? "webp")%string then Some (Webp, quality)
  else None.

Definition opt_field {O A} (f : O -> option A) (o : option O) : option A :=
  match o with
  | Some v => f v
  | None => None
  end.

(** The options [generateThumbnail] and [generateMedium] pass to [resize]. *)
Definition thumbnail_options : option ResizeOptions :=
  Some (mkResizeOptions (Some 80) (Some "jpeg") (Some Cover)).

Definition medium_options : option ResizeOptions :=
  Some (mkResizeOptions (Some 85) (Some "jpeg") (Some Cover)).

Section ImageProcessing.

Variable sh : Sharp.

Definition resize (imageBuffer : Buffer) (width height : Z)
    (options : option ResizeOptions) : exn + ProcessedImage :=
  let quality := Js.or_num (opt_field ro_quality options) 90 in
  let format := Js.or_str (opt_field ro_format options) "jpeg" in
  let fit :=
    match opt_field ro_fit options with Some f => f | None => Cover end in
  let sharpInstance :=
    mkPipeline width height fit (encoder_of format quality) in
  match sharp_toBuffer sh imageBuffer sharpInstance with
  | inl e => inl e
  | inr buffer =>
      match sharp_metadata sh buffer with
      | inl e => inl e
      | inr metadata =>
          inr {| pi_buffer := buffer;
                 pi_width := Js.or_num (md_width metadata) width;
                 pi_height := Js.or_num (md_height metadata) height;
                 pi_format := Js.or_str (md_format metadata) format;
                 pi_size := buffer_length buffer |}
      end
  end.

Definition getMetadata (imageBuffer : Buffer) : exn + Metadata :=
  sharp_metadata sh imageBuffer.

(** [generateThumbnail] and [generateMedium], at their default sizes. *)
Definition generateThumbnail (imageBuffer : Buffer) : exn + ProcessedImage :=
  resize imageBuffer 400 300 thumbnail_options.

Definition generateMedium (imageBuffer : Buffer) : exn + ProcessedImage :=
  resize imageBuffer 800 600 medium_options.

(** [stats.channels[i].mean]: reading a property of [undefined] throws. *)
Definition channel_mean (stats : Stats) (i : nat) : exn + Q :=
  match nth_error (channels stats) i with
  | Some c => inr (mean c)
  | None =>
      inl (mkExn TypeError
             "Cannot read properties of undefined (reading 'mean')")
  end.

Definition hex2 (v : Z) : string := Js.padStart 2 "0" (Js.toString16 v).

(** The [try] block of [extractPrimaryColor]. *)
Definition extractPrimaryColor_try (imageBuffer : Buffer) : exn + string :=
  match sharp_stats sh imageBuffer with
  | inl e => inl e
  | inr stats =>
      match channel_mean stats 0 with
      | inl e => inl e
      | inr m0 =>
          let r := Js.round m0 in
          match channel_mean stats 1 with
          | inl e => inl e
          | inr m1 =>
              let g := Js.round m1 in
              match channel_mean stats 2 with
              | inl e => inl e
              | inr m2 =>
                  let b := Js.round m2 in
                  inr ("#" ++ hex2 r ++ hex2 g ++ hex2 b)
              end
          end
      end
  end.

(** The checks of [validate], in source order; each pushes one message. *)
Definition check_format (options : option ValidateOptions)
    (metadata : Metadata) (errors : list string) : list string :=
  match opt_field allowedFormats options with
  | Some allowed =>
      if negb (Js.includes allowed (Js.or_str (md_format metadata) ""))
      then errors ++ ["Invalid format. Allowed: " ++ Js.join ", " allowed]
      else errors
  | None => errors
  end.

Definition exceeds (limit : option Z) (actual : option Z) : option Z :=
  match limit, actual with
  | Some l, Some a =>
      if Js.truthy l && Js.truthy a && (a >? l) then Some l else None
  | _, _ => None
  end.

Definition check_width (options : option ValidateOptions)
    (metadata : Metadata) (errors : list string) : list string :=
  match exceeds (opt_field maxWidth options) (md_width metadata) with
  | Some l =>
      errors ++ ["Width exceeds maximum of " ++ Js.string_of_Z l ++ "px"]
  | None => errors
  end.

Definition check_height (options : option ValidateOptions)
    (metadata : Metadata) (errors : list string) : list string :=
  match exceeds (opt_field maxHeight options) (md_height metadata) with
  | Some l =>
      errors ++ ["Height exceeds maximum of " ++ Js.string_of_Z l ++ "px"]
  | None => errors
  end.

Definition check_size (options : option ValidateOptions)
    (imageBuffer : Buffer) (errors : list string) : list string :=
  match opt_field maxSize options with
  | Some l =>
      if Js.truthy l && (buffer_length imageBuffer >? l)
      then
        let maxSizeMB := Js.toFixed2 l (1024 * 1024) in
        errors ++ ["File size exceeds maximum of " ++ maxSizeMB ++ "MB"]
      else errors
  | None => errors
  end.

Definition validate (imageBuffer : Buffer)
    (options : option ValidateOptions) : exn + ValidationResult :=
  let errors : list string := [] in
  match sharp_metadata sh imageBuffer with
  | inr metadata =>
      let errors := check_format options metadata errors in
      let errors := check_width options metadata errors in
      let errors := check_height options metadata errors in
      let errors := check_size options imageBuffer errors in
      inr {| valid := (List.length errors =? 0)%nat; errors := errors |}
  | inl _ =>
      let errors := (errors ++ ["Invalid image file"%string])%list in
      inr {| valid := false; errors := errors |}
  end.

End ImageProcessing.

(* ------------------------------------------------------------------ *)
(** ** Storage services, rows and the process state *)

Inductive Provider := Cloudinary | S3.

(** An instance of [CloudinaryService] or [S3Service]: [svc_ref] is the
    identity of the object ([===] compares it), [svc_class] its class. *)
Record Service := mkService { svc_ref : nat; svc_class : Provider }.

Record UploadOptions := mkUploadOptions {
  uo_folder : option string;
  uo_filename : option string;
  uo_format : option string
}.

Record UploadResult := mkUploadResult {
  url : string;
  publicId : option string;
  ur_format : option string;
  ur_width : option Z;
  ur_height : option Z;
  ur_size : option Z
}.

(** What [cloudinary.uploader.upload_stream] is given and what its callback
    receives. *)
Record CloudinaryRequest := mkCloudinaryRequest {
  cq_folder : string;
  cq_public_id : option string;
  cq_format : option string
}.

Record CloudinaryResponse := mkCloudinaryResponse {
  secure_url : string;
  public_id : string;
  cr_format : option string;
  cr_width : option Z;
  cr_height : option Z;
  bytes : option Z
}.

Record PutObject := mkPutObject {
  Bucket : string;
  Key : string;
  Body : Buffer;
  ContentType : string
}.

Record WallpaperData := mkWallpaperData {
  w_title : string;
  w_slug : string;
  w_description : option string;
  w_original_url : string;
  w_thumbnail_url : string;
  w_medium_url : string;
  w_primary_color : string;
  w_tags : list string;
  w_uploaded_by : Z;
  w_storage_provider_id : Z;
  w_is_featured : Z
}.

Record ResolutionRow := mkResolutionRow {
  wallpaper_id : Z;
  r_width : Z;
  r_height : Z;
  resolution_name : string;
  file_size : Z;
  r_url : string;
  is_original : Z
}.

(** Calls that leave the process, and console output, in the order issued. *)
Inductive Event :=
| ConsoleError (label : string) (error : exn)
| ConsoleWarn (label : string)
| ProviderQuery
| ResizeCall (width height : Z) (options : option ResizeOptions)
| UploadCall (svc : Service) (file : Buffer) (options : UploadOptions)
| InsertWallpaper (data : WallpaperData)
| InsertCategories (wallpaperId : Z) (categoryIds : list Z)
| InsertResolutions (rows : list ResolutionRow)
| SelectWallpaper (id : Z).

(** Everything outside the process: the codec, the two storage providers,
    the database, the environment variables, the clock behind the slug and
    the order in which concurrent promises settle.
      - [provider_rows n]: the [provider_name] column of what the [n]-th
        query of [storage_providers] returns;
      - [cloudinary_upload_stream], [s3_send]: what the provider answers (a
        Cloudinary callback that receives neither error nor result leaves
        the promise pending and is not represented);
      - [randomBytes_hex]: [crypto.randomBytes(16).toString('hex')];
      - [MAX_FILE_SIZE]: [parseInt(process.env.MAX_FILE_SIZE || '10485760')],
        with [0] standing for [NaN], which is falsy too;
      - [generateWithTimestamp]: [SlugUtil.generateWithTimestamp], which
        reads the clock;
      - [settle_order]: indices of the three core uploads in the order
        their promises settle;
      - [insert_wallpaper] returns the [insertId]. *)
Record World := mkWorld {
  sharp : Sharp;
  provider_rows : nat -> exn + list string;
  cloudinary_upload_stream : CloudinaryRequest -> Buffer -> exn + CloudinaryResponse;
  s3_send : PutObject -> exn + unit;
  AWS_S3_BUCKET : string;
  AWS_REGION : string;
  randomBytes_hex : string;
  MAX_FILE_SIZE : Z;
  generateWithTimestamp : string -> string;
  settle_order : list nat;
  insert_wallpaper : WallpaperData -> exn + Z;
  insert_categories : Z -> list Z -> exn + unit;
  insert_resolutions : list ResolutionRow -> exn + unit;
  select_wallpaper : Z -> exn + option string
}.

(** [instance] is [StorageFactory.instance]; [allocated] counts the service
    objects constructed so far, [queries] the provider queries issued. *)
Record State := mkState {
  instance : option Service;
  allocated : nat;
  queries : nat;
  trace : list Event
}.

(** Computations that read and write the process state and may throw. *)
Definition M (A : Type) : Type := State -> (exn + A) * State.

Definition ret {A} (a : A) : M A := fun s => (inr a, s).

Definition throw {A} (e : exn) : M A := fun s => (inl e, s).

Definition bind {A B} (m : M A) (k : A -> M B) : M B :=
  fun s =>
    match m s with
    | (inr a, s') => k a s'
    | (inl e, s') => (inl e, s')
    end.

(** [try { m } catch (error) { h error }]: what [m] did before it threw
    stays done. *)
Definition try_catch {A} (m : M A) (h : exn -> M A) : M A :=
  fun s =>
    match m s with
    | (inr a, s') => (inr a, s')
    | (inl e, s') => h e s'
    end.

Definition lift {A} (r : exn + A) : M A := fun s => (r, s).

Definition emit (ev : Event) : M unit :=
  fun s =>
    (inr tt, mkState (instance s) (allocated s) (queries s)
               (trace s ++ [ev])%list).

Declare Scope m_scope.
Delimit Scope m_scope with M.
Notation "x <- m ;; k" := (bind m (fun x => k))
  (at level 100, m at next level, right associativity) : m_scope.
Notation "m ;;; k" := (bind m (fun _ => k))
  (at level 100, right associativity) : m_scope.
Open Scope m_scope.

(** Settling a promise without unwinding: its outcome as a value. *)
Definition settle {A} (m : M A) : M (exn + A) :=
  fun s => let '(r, s') := m s in (inr r, s').

Fixpoint first_rejection {A} (order : list nat) (outcomes : list (exn + A))
    : option exn :=
  match order with
  | [] => None
  | i :: rest =>
      match nth_error outcomes i with
      | Some (inl e) => Some e
      | _ => first_rejection rest outcomes
      end
  end.

(** [Promise.all([a, b, c])]: the three calls are issued in array order, and
    the result rejects with the rejection that settles first, [order] being
    the order in which the promises settle. *)
Definition promise_all3 {A} (order : list nat) (a b c : M A) : M (A * A * A) :=
  ra <- settle a ;;
  rb <- settle b ;;
  rc <- settle c ;;
  match first_rejection (order ++ [0%nat; 1%nat; 2%nat])%list [ra; rb; rc] with
  | Some e => throw e
  | None =>
      match ra, rb, rc with
      | inr x, inr y, inr z => ret (x, y, z)
      | inl e, _, _ | _, inl e, _ | _, _, inl e => throw e
      end
  end.

(* ------------------------------------------------------------------ *)
(** ** CloudinaryService and S3Service *)

Definition or_opt (x y : option string) : option string :=
  match x with
  | Some "" => y
  | Some v => Some v
  | None => y
  end.

Definition CloudinaryService_upload (w : World) (file : Buffer)
    (options : UploadOptions) : exn + UploadResult :=
  let uploadOptions :=
    {| cq_folder := Js.or_str (uo_folder options) "wallpapers";
       cq_public_id := uo_filename options;
       cq_format := or_opt (uo_format options) None |} in
  match cloudinary_upload_stream w uploadOptions file with
  | inl error => inl error
  | inr result =>
      inr {| url := secure_url result;
             publicId := Some (public_id result);
             ur_format := cr_format result;
             ur_width := cr_width result;
             ur_height := cr_height result;
             ur_size := bytes result |}
  end.

Definition S3Service_upload (w : World) (file : Buffer)
    (options : UploadOptions) : exn + UploadResult :=
  let filename := Js.or_str (uo_filename options) (randomBytes_hex w) in
  let folder := Js.or_str (uo_folder options) "wallpapers" in
  let key := folder ++ "/" ++ filename in
  match sharp_metadata (sharp w) file with
  | inl e => inl e
  | inr metadata =>
      let format := or_opt (uo_format options) (md_format metadata) in
      let command :=
        {| Bucket := AWS_S3_BUCKET w;
           Key := key;
           Body := file;
           ContentType := "image/" ++ Js.or_str format "jpeg" |} in
      match s3_send w command with
      | inl e => inl e
      | inr _ =>
          inr {| url := "https://" ++ AWS_S3_BUCKET w ++ ".s3." ++
                        AWS_REGION w ++ ".amazonaws.com/" ++ key;
                 publicId := Some key;
                 ur_format := format;
                 ur_width := md_width metadata;
                 ur_height := md_height metadata;
                 ur_size := Some (buffer_length file) |}
      end
  end.

(** [service.upload(file, options)] through the [IStorageService] interface. *)
Definition upload_outcome (w : World) (svc : Service) (file : Buffer)
    (options : UploadOptions) : exn + UploadResult :=
  match svc_class svc with
  | Cloudinary => CloudinaryService_upload w file options
  | S3 => S3Service_upload w file options
  end.

Definition upload (w : World) (svc : Service) (file : Buffer)
    (options : UploadOptions) : M UploadResult :=
  emit (UploadCall svc file options) ;;;
  lift (upload_outcome w svc file options).

(* ------------------------------------------------------------------ *)
(** ** StorageFactory *)

Module StorageFactory.

(** [new CloudinaryService()] / [new S3Service()]: a fresh object. *)
Definition new (p : Provider) : M Service :=
  fun s =>
    (inr (mkService (allocated s) p),
     mkState (instance s) (S (allocated s)) (queries s) (trace s)).

Definition set_instance (i : option Service) : M unit :=
  fun s => (inr tt, mkState i (allocated s) (queries s) (trace s)).

Definition get_instance : M (option Service) :=
  fun s => (inr (instance s), s).

(** [pool.query('SELECT provider_name FROM storage_providers WHERE
    is_active = 1 ORDER BY priority DESC LIMIT 1')]. *)
Definition query_active_provider (w : World) : M (list string) :=
  fun s =>
    (provider_rows w (queries s),
     mkState (instance s) (allocated s) (S (queries s))
       (trace s ++ [ProviderQuery])%list).

Definition createService (provider : string) : M Service :=
  let p := Js.toLowerCase provider in
  if (p =? "cloudinary")%string then new Cloudinary
  else if (p =? "s3")%string then new S3
  else
    emit (ConsoleWarn ("Unknown storage provider: " ++ provider ++
                       ", falling back to Cloudinary")) ;;;
    new Cloudinary.

Definition getActiveService (w : World) : M Service :=
  cached <- get_instance ;;
  match cached with
  | Some i => ret i
  | None =>
      try_catch
        (rows <- query_active_provider w ;;
         let providerName :=
           match rows with
           | r :: _ => r
           | [] => "cloudinary"
           end in
         i <- createService providerName ;;
         set_instance (Some i) ;;;
         ret i)
        (fun error =>
           emit (ConsoleError
                   "Failed to get storage provider from database:" error) ;;;
           i <- new Cloudinary ;;
           set_instance (Some i) ;;;
           ret i)
  end.

Definition reset : M unit := set_instance None.

End StorageFactory.

(* ------------------------------------------------------------------ *)
(** ** ImageProcessingService, with its calls and console output recorded *)

(** A JavaScript [Map] with string keys: insertion-ordered; [set] on a key
    already present replaces the value where the key stands. *)
Definition JsMap (V : Type) : Type := list (string * V).

Fixpoint map_set {V} (m : JsMap V) (k : string) (v : V) : JsMap V :=
  match m with
  | [] => [(k, v)]
  | (k', v') :: rest =>
      if (k' =? k)%string then (k, v) :: rest
      else (k', v') :: map_set rest k v
  end.

Definition map_keys {V} (m : JsMap V) : list string := List.map fst m.

Definition resize_call (w : World) (imageBuffer : Buffer) (width height : Z)
    (options : option ResizeOptions) : M ProcessedImage :=
  emit (ResizeCall width height options) ;;;
  lift (resize (sharp w) imageBuffer width height options).

Definition generateThumbnail_call (w : World) (imageBuffer : Buffer)
    : M ProcessedImage :=
  resize_call w imageBuffer 400 300 thumbnail_options.

Definition generateMedium_call (w : World) (imageBuffer : Buffer)
    : M ProcessedImage :=
  resize_call w imageBuffer 800 600 medium_options.

Definition extractPrimaryColor (w : World) (imageBuffer : Buffer) : M string :=
  try_catch
    (lift (extractPrimaryColor_try (sharp w) imageBuffer))
    (fun error =>
       emit (ConsoleError "Failed to extract primary color:" error) ;;;
       ret "#000000").

(** The [for (const res of this.RESOLUTIONS)] loop. *)
Fixpoint generate_loop (w : World) (imageBuffer : Buffer)
    (specs : list ResolutionConfig) (results : JsMap ProcessedImage)
    : M (JsMap ProcessedImage) :=
  match specs with
  | [] => ret results
  | res :: rest =>
      results' <-
        try_catch
          (processed <-
             resize_call w imageBuffer (width res) (height res) None ;;
           ret (map_set results (name res) processed))
          (fun error =>
             emit (ConsoleError ("Failed to generate " ++ name res ++ ":")
                     error) ;;;
             ret results) ;;
      generate_loop w imageBuffer rest results'
  end.

Definition generateAllResolutions (w : World) (imageBuffer : Buffer)
    (includeOriginal : bool) : M (JsMap ProcessedImage) :=
  results <-
    (if includeOriginal
     then
       metadata <- lift (sharp_metadata (sharp w) imageBuffer) ;;
       ret (map_set [] "original"
              {| pi_buffer := imageBuffer;
                 pi_width := Js.or_num (md_width metadata) 0;
                 pi_height := Js.or_num (md_height metadata) 0;
                 pi_format := Js.or_str (md_format metadata) "jpeg";
                 pi_size := buffer_length imageBuffer |})
     else ret []) ;;
  generate_loop w imageBuffer RESOLUTIONS results.

(* ------------------------------------------------------------------ *)
(** ** WallpaperModel and WallpaperResolutionModel *)

Definition WallpaperModel_create (w : World) (data : WallpaperData) : M Z :=
  emit (InsertWallpaper data) ;;;
  lift (insert_wallpaper w data).

Definition WallpaperModel_addCategories (w : World) (wallpaperId : Z)
    (categoryIds : list Z) : M unit :=
  match categoryIds with
  | [] => ret tt
  | _ =>
      emit (InsertCategories wallpaperId categoryIds) ;;;
      lift (insert_categories w wallpaperId categoryIds)
  end.

Definition WallpaperResolutionModel_bulkCreate (w : World)
    (resolutions : list ResolutionRow) : M unit :=
  match resolutions with
  | [] => ret tt
  | _ =>
      emit (InsertResolutions resolutions) ;;;
      lift (insert_resolutions w resolutions)
  end.

Definition WallpaperModel_findById (w : World) (id : Z) : M (option string) :=
  emit (SelectWallpaper id) ;;;
  lift (select_wallpaper w id).

(* ------------------------------------------------------------------ *)
(** ** WallpaperController.create *)

Record UploadedFile := mkFile { f_buffer : Buffer; f_size : Z }.

(** [req.body.category_ids] after
    [typeof category_ids === 'string' ? JSON.parse(category_ids) : category_ids]:
    the parse threw, the field was absent, or an array was obtained. *)
Inductive CategoryIds :=
| CatMalformed
| CatUndefined
| CatParsed (ids : list Z).

(** [req_tags] is the outcome of
    [tags ? (typeof tags === 'string' ? JSON.parse(tags) : tags) : []]. *)
Record Request := mkRequest {
  req_file : option UploadedFile;
  req_title : string;
  req_description : option string;
  req_tags : exn + list string;
  req_category_ids : CategoryIds;
  req_is_featured : bool;
  req_user_id : Z
}.

Inductive ResponseBody :=
| ErrorBody (error : string)
| ErrorsBody (errors : list string)
| CreatedBody (message : string) (data : option string).

Record Response := mkResponse { status : Z; body : ResponseBody }.

Definition sweep_filename (slug name : string) : string :=
  slug ++ "-" ++ Js.replace_spaces false (Js.toLowerCase name).

Definition sweep_options (slug name : string) : UploadOptions :=
  mkUploadOptions (Some "wallpapers/resolutions")
    (Some (sweep_filename slug name)) None.

Definition resolution_row (wallpaperId : Z) (name : string)
    (processed : ProcessedImage) (resUpload : UploadResult) : ResolutionRow :=
  {| wallpaper_id := wallpaperId;
     r_width := pi_width processed;
     r_height := pi_height processed;
     resolution_name := name;
     file_size := pi_size processed;
     r_url := url resUpload;
     is_original := if (name =? "original")%string then 1 else 0 |}.

(** The [for (const [name, processed] of resolutions)] loop. *)
Fixpoint upload_resolutions (w : World) (storageService : Service)
    (slug : string) (wallpaperId : Z)
    (entries : JsMap ProcessedImage) (resolutionData : list ResolutionRow)
    : M (list ResolutionRow) :=
  match entries with
  | [] => ret resolutionData
  | (name, processed) :: rest =>
      resUpload <-
        upload w storageService (pi_buffer processed)
          (sweep_options slug name) ;;
      upload_resolutions w storageService slug wallpaperId rest
        (resolutionData ++
         [resolution_row wallpaperId name processed resUpload])%list
  end.

Definition validate_options (w : World) : option ValidateOptions :=
  Some {| maxWidth := Some 10000;
          maxHeight := Some 10000;
          maxSize := Some (MAX_FILE_SIZE w);
          allowedFormats := Some ["jpeg"; "jpg"; "png"; "webp"] |}.

Definition core_options (folder filename : string) : UploadOptions :=
  mkUploadOptions (Some folder) (Some filename) None.

Definition original_row (wallpaperId : Z) (metadata : Metadata)
    (file : UploadedFile) (originalUpload : UploadResult) : ResolutionRow :=
  {| wallpaper_id := wallpaperId;
     r_width := Js.or_num (md_width metadata) 0;
     r_height := Js.or_num (md_height metadata) 0;
     resolution_name := "Original";
     file_size := f_size file;
     r_url := url originalUpload;
     is_original := 1 |}.

(** Everything from the catalog sweep to the response (lines 511-552). *)
Definition sweep_and_respond (w : World) (file : UploadedFile)
    (metadata : Metadata) (slug : string) (storageService : Service)
    (originalUpload : UploadResult) (wallpaperId : Z) : M Response :=
  resolutions <- generateAllResolutions w (f_buffer file) false ;;
  resolutionData <-
    upload_resolutions w storageService slug wallpaperId resolutions [] ;;
  let resolutionData :=
    (resolutionData ++
     [original_row wallpaperId metadata file originalUpload])%list in
  WallpaperResolutionModel_bulkCreate w resolutionData ;;;
  wallpaper <- WallpaperModel_findById w wallpaperId ;;
  ret (mkResponse 201 (CreatedBody "Wallpaper uploaded successfully" wallpaper)).

(** From the three core uploads to the response (lines 471-552). *)
Definition upload_and_persist (w : World) (req : Request) (file : UploadedFile)
    (metadata : Metadata) (primaryColor slug : string)
    (storageService : Service) (thumbnail medium : ProcessedImage)
    : M Response :=
  uploads <-
    promise_all3 (settle_order w)
      (upload w storageService (f_buffer file)
         (core_options "wallpapers/original" slug))
      (upload w storageService (pi_buffer thumbnail)
         (core_options "wallpapers/thumbnails" (slug ++ "-thumb")))
      (upload w storageService (pi_buffer medium)
         (core_options "wallpapers/medium" (slug ++ "-medium"))) ;;
  let '(originalUpload, thumbnailUpload, mediumUpload) := uploads in
  let storageProviderId := 1 in
  tags <- lift (req_tags req) ;;
  wallpaperId <-
    WallpaperModel_create w
      {| w_title := req_title req;
         w_slug := slug;
         w_description := req_description req;
         w_original_url := url originalUpload;
         w_thumbnail_url := url thumbnailUpload;
         w_medium_url := url mediumUpload;
         w_primary_color := primaryColor;
         w_tags := tags;
         w_uploaded_by := req_user_id req;
         w_storage_provider_id := storageProviderId;
         w_is_featured := if req_is_featured req then 1 else 0 |} ;;
  categoryIds <-
    match req_category_ids req with
    | CatParsed ids => ret ids
    | _ =>
        throw (mkExn TypeError
                 "Cannot read properties of undefined (reading 'length')")
    end ;;
  (if (0 <? Z.of_nat (List.length categoryIds))
   then WallpaperModel_addCategories w wallpaperId categoryIds
   else ret tt) ;;;
  sweep_and_respond w file metadata slug storageService originalUpload
    wallpaperId.

(** The [catch] block of [create]. *)
Definition respond_failure (error : exn) : M Response :=
  emit (ConsoleError "Upload wallpaper error:" error) ;;;
  ret (mkResponse 500
         (ErrorBody (Js.or_str (Some (message error))
                       "Failed to upload wallpaper"))).

(** From validation on (lines 441-552). *)
Definition validate_and_ingest (w : World) (req : Request)
    (file : UploadedFile) : M Response :=
  validation <-
    lift (validate (sharp w) (f_buffer file) (validate_options w)) ;;
  if negb (valid validation)
  then ret (mkResponse 400 (ErrorsBody (errors validation)))
  else
    metadata <- lift (getMetadata (sharp w) (f_buffer file)) ;;
    primaryColor <- extractPrimaryColor w (f_buffer file) ;;
    let slug := generateWithTimestamp w (req_title req) in
    storageService <- StorageFactory.getActiveService w ;;
    thumbnail <- generateThumbnail_call w (f_buffer file) ;;
    medium <- generateMedium_call w (f_buffer file) ;;
    upload_and_persist w req file metadata primaryColor slug
      storageService thumbnail medium.

Definition create (w : World) (req : Request) : M Response :=
  try_catch
    (match req_file req with
     | None => ret (mkResponse 400 (ErrorBody "Image file is required"))
     | Some file =>
         match req_category_ids req with
         | CatMalformed =>
             ret (mkResponse 400 (ErrorBody "Invalid category_ids format"))
         | _ => validate_and_ingest w req file
         end
     end)
    respond_failure.

(* ------------------------------------------------------------------ *)
(** ** A sample world

    A small executable instance of [World] on which the definitions above
    can be run: a codec for flat-colour images stored as eight bytes
    (format tag, width, height, red, green, blue), a Cloudinary account
    that can be told to refuse one public id, and a database that accepts
    every row. *)

Module Sample.

Definition byte_Z (b : Byte.byte) : Z := Z.of_N (Byte.to_N b).

Definition Z_byte (z : Z) : Byte.byte :=
  match Byte.of_N (Z.to_N z) with
  | Some b => b
  | None => Byte.x00
  end.

Record Image := mkImage {
  im_format : string;
  im_width : Z;
  im_height : Z;
  im_red : Z;
  im_green : Z;
  im_blue : Z
}.

Definition format_of_tag (tag : Z) : option string :=
  if tag =? 1 then Some "jpeg"
  else if tag =? 2 then Some "png"
  else if tag =? 3 then Some "webp"
  else if tag =? 4 then Some "gif"
  else None.

Definition tag_of_format (format : string) : Z :=
  if (format =? "jpeg")%string then 1
  else if (format =? "png")%string then 2
  else if (format =? "webp")%string then 3
  else 4.

Definition decode (buf : Buffer) : option Image :=
  match buf with
  | [f; wh; wl; hh; hl; r; g; b] =>
      match format_of_tag (byte_Z f) with
      | Some format =>
          Some (mkImage format
                  (256 * byte_Z wh + byte_Z wl)
                  (256 * byte_Z hh + byte_Z hl)
                  (byte_Z r) (byte_Z g) (byte_Z b))
      | None => None
      end
  | _ => None
  end.

Definition encode (im : Image) : Buffer :=
  [ Z_byte (tag_of_format (im_format im));
    Z_byte (im_width im / 256); Z_byte (im_width im mod 256);
    Z_byte (im_height im / 256); Z_byte (im_height im mod 256);
    Z_byte (im_red im); Z_byte (im_green im); Z_byte (im_blue im) ].

Definition not_an_image : exn :=
  mkExn CodecFailure "Input buffer contains unsupported image format".

Definition encoder_name (e : Encoder) : string :=
  match e with
  | Jpeg => "jpeg"
  | Png => "png"
  | Webp => "webp"
  end.

(** Output box of a resize: the requested box for the fits that crop, pad
    or stretch; the box scaled to the source's proportions otherwise. *)
Definition output_size (fit : Fit) (sw sh w h : Z) : Z * Z :=
  match fit with
  | Cover | Contain | Fill => (w, h)
  | Inside =>
      if sw * h <=? sh * w then (Z.max 1 (sw * h / sh), h)
      else (w, Z.max 1 (sh * w / sw))
  | Outside =>
      if sw * h <=? sh * w then (w, Z.max 1 (sh * w / sw))
      else (Z.max 1 (sw * h / sh), h)
  end.

Definition metadata (buf : Buffer) : exn + Metadata :=
  match decode buf with
  | Some im =>
      inr (mkMetadata (Some (im_width im)) (Some (im_height im))
             (Some (im_format im)))
  | None => inl not_an_image
  end.

Definition toBuffer (buf : Buffer) (pl : Pipeline) : exn + Buffer :=
  match decode buf with
  | Some im =>
      if (0 <? p_width pl) && (p_width pl <=? 65535) &&
         (0 <? p_height pl) && (p_height pl <=? 65535)
      then
        let '(w, h) :=
          output_size (p_fit pl) (im_width im) (im_height im)
            (p_width pl) (p_height pl) in
        let format :=
          match p_encoder pl with
          | Some (e, _) => encoder_name e
          | None => im_format im
          end in
        inr (encode (mkImage format w h
                       (im_red im) (im_green im) (im_blue im)))
      else inl (mkExn CodecFailure "Expected positive integer for width")
  | None => inl not_an_image
  end.

Definition stats (buf : Buffer) : exn + Stats :=
  match decode buf with
  | Some im =>
      inr (mkStats [ mkChannel (inject_Z (im_red im));
                     mkChannel (inject_Z (im_green im));
                     mkChannel (inject_Z (im_blue im)) ])
  | None => inl not_an_image
  end.

Definition codec : Sharp := mkSharp metadata toBuffer stats.

(** A 4000 x 3000 JPEG of colour (200, 100, 50). *)
Definition photo : Buffer :=
  encode (mkImage "jpeg" 4000 3000 200 100 50).

(** A 4000 x 3000 GIF. *)
Definition animation : Buffer :=
  encode (mkImage "gif" 4000 3000 10 20 30).

(** Twelve bytes that are no image. *)
Definition garbage : Buffer :=
  List.repeat Byte.x2a 12.

Definition quota_exceeded : exn :=
  mkExn ProviderFailure "Storage quota exceeded".

(** Cloudinary, refusing the public ids in [refused]. *)
Definition upload_stream (refused : list string)
    (rq : CloudinaryRequest) (file : Buffer) : exn + CloudinaryResponse :=
  let id :=
    match cq_public_id rq with Some i => i | None => "generated" end in
  if Js.includes refused id then inl quota_exceeded
  else
    inr {| secure_url := "https://res.cloudinary.com/demo/" ++
                         cq_folder rq ++ "/" ++ id;
           public_id := cq_folder rq ++ "/" ++ id;
           cr_format := Some "jpg";
           cr_width := None;
           cr_height := None;
           bytes := Some (buffer_length file) |}.

Definition database_down : exn :=
  mkExn DatabaseFailure "connect ECONNREFUSED".

(** [rows n] is what the [n]-th provider query returns. *)
Definition world (refused : list string)
    (rows : nat -> exn + list string) : World :=
  {| sharp := codec;
     provider_rows := rows;
     cloudinary_upload_stream := upload_stream refused;
     s3_send := fun _ => inr tt;
     AWS_S3_BUCKET := "wallspie";
     AWS_REGION := "us-east-1";
     randomBytes_hex := "5f2a9c0e7b1d4a3f8e6c2b0d9a7f1e3c";
     MAX_FILE_SIZE := 10485760;
     generateWithTimestamp := fun title =>
       Js.replace_spaces false (Js.toLowerCase title) ++ "-lq3x9k";
     settle_order := [];
     insert_wallpaper := fun _ => inr 42;
     insert_categories := fun _ _ => inr tt;
     insert_resolutions := fun _ => inr tt;
     select_wallpaper := fun _ => inr (Some "wallpaper 42") |}.

Definition cloudinary_rows : nat -> exn + list string :=
  fun _ => inr ["cloudinary"].

(** The first provider query fails, the later ones name S3. *)
Definition flaky_rows : nat -> exn + list string :=
  fun n =>
    match n with
    | O => inl database_down
    | S _ => inr ["s3"]
    end.

Definition boot : State := mkState None 0 0 [].

Definition request : Request :=
  {| req_file := Some (mkFile photo 8);
     req_title := "Sunset";
     req_description := None;
     req_tags := inr [];
     req_category_ids := CatParsed [3];
     req_is_featured := false;
     req_user_id := 1 |}.

End Sample.







(* ------------------------------------------------------------------ *)
(** ** Vocabulary of the specification *)

(** A colour string as the specification describes it: [#] followed by six
    digits among [0-9a-f], read back as its three channel values. *)
Definition hex_value (c : ascii) : option Z :=
  let n := Z.of_nat (nat_of_ascii c) in
  if (48 <=? n) && (n <=? 57) then Some (n - 48)
  else if (97 <=? n) && (n <=? 102) then Some (n - 87)
  else None.

Definition parse_channel (hi lo : ascii) : option Z :=
  match hex_value hi, hex_value lo with
  | Some h, Some l => Some (16 * h + l)
  | _, _ => None
  end.

Definition parse_hex_color (s : string) : option (Z * Z * Z) :=
  match s with
  | String "#" (String r1 (String r2 (String g1 (String g2
      (String b1 (String b2 EmptyString)))))) =>
      match parse_channel r1 r2, parse_channel g1 g2, parse_channel b1 b2 with
      | Some r, Some g, Some b => Some (r, g, b)
      | _, _, _ => None
      end
  | _ => None
  end.

Definition is_hex_color (s : string) : bool :=
  match parse_hex_color s with
  | Some _ => true
  | None => false
  end.

(** [hex2] writes a channel value that [parse_channel] reads back. *)
Definition channel_round_trips (v : Z) : bool :=
  match hex2 v with
  | String hi (String lo EmptyString) =>
      match parse_channel hi lo with
      | Some v' => v' =? v
      | None => false
      end
  | _ => false
  end.


(** The four constraints of [validate], as the specification words them. *)
Definition actual_format (md : Metadata) : string :=
  match md_format md with
  | Some f => f
  | None => ""
  end.

Definition format_not_allowed (options : option ValidateOptions)
    (md : Metadata) : bool :=
  match opt_field allowedFormats options with
  | Some allowed => negb (existsb (String.eqb (actual_format md)) allowed)
  | None => false
  end.

Definition exceeded (limit actual : option Z) : bool :=
  match limit, actual with
  | Some l, Some a => l <? a
  | _, _ => false
  end.

(** A limit is in force when it is supplied and is not zero; a dimension is
    known when the codec reports one that is not zero. *)
Definition in_force (x : option Z) : option Z :=
  match x with
  | Some v => if v =? 0 then None else Some v
  | None => None
  end.

Definition over (limit actual : option Z) : bool :=
  match in_force limit, in_force actual with
  | Some l, Some a => l <? a
  | _, _ => false
  end.

Definition over_size (limit : option Z) (size : Z) : bool :=
  match in_force limit with
  | Some l => l <? size
  | None => false
  end.

Definition limit_value (limit : option Z) : Z :=
  match limit with
  | Some l => l
  | None => 0
  end.

Definition allowed_list (options : option ValidateOptions) : list string :=
  match opt_field allowedFormats options with
  | Some allowed => allowed
  | None => []
  end.

(** The four constraints in the order [validate] checks them, each with
    whether the image violates it and the message that reports it. *)
Definition constraint_reports (options : option ValidateOptions)
    (md : Metadata) (buf : Buffer) : list (bool * string) :=
  [ (format_not_allowed options md,
     "Invalid format. Allowed: " ++ Js.join ", " (allowed_list options));
    (over (opt_field maxWidth options) (md_width md),
     "Width exceeds maximum of " ++
     Js.string_of_Z (limit_value (opt_field maxWidth options)) ++ "px");
    (over (opt_field maxHeight options) (md_height md),
     "Height exceeds maximum of " ++
     Js.string_of_Z (limit_value (opt_field maxHeight options)) ++ "px");
    (over_size (opt_field maxSize options) (buffer_length buf),
     "File size exceeds maximum of " ++
     Js.toFixed2 (limit_value (opt_field maxSize options)) (1024 * 1024) ++
     "MB") ].

Definition violated_reports (options : option ValidateOptions)
    (md : Metadata) (buf : Buffer) : list (bool * string) :=
  List.filter fst (constraint_reports options md buf).

Definition positive_limit (limit : option Z) : Prop :=
  forall l, limit = Some l -> 0 < l.

Definition decodable (sh : Sharp) (buf : Buffer) : Prop :=
  exists md, sharp_metadata sh buf = inr md.




(** Calls of the catalog sweep: [generateAllResolutions] resizes without
    options, and the sweep uploads into [wallpapers/resolutions]. *)
Definition is_sweep_call (ev : Event) : bool :=
  match ev with
  | ResizeCall _ _ None => true
  | UploadCall _ _ options =>
      match uo_folder options with
      | Some folder => (folder =? "wallpapers/resolutions")%string
      | None => false
      end
  | _ => false
  end.

(** Writes through the persistence boundary. *)
Definition is_row_write (ev : Event) : bool :=
  match ev with
  | InsertWallpaper _ | InsertCategories _ _ | InsertResolutions _ => true
  | _ => false
  end.

Definition is_wallpaper_insert (ev : Event) : bool :=
  match ev with
  | InsertWallpaper _ => true
  | _ => false
  end.

Definition is_resolution_insert (ev : Event) : bool :=
  match ev with
  | InsertResolutions _ => true
  | _ => false
  end.

Definition is_sweep_upload (ev : Event) : bool :=
  match ev with
  | UploadCall _ _ _ => is_sweep_call ev
  | _ => false
  end.

Definition is_provider_query (ev : Event) : bool :=
  match ev with
  | ProviderQuery => true
  | _ => false
  end.

(** The backend a configuration read selects: the provider named by the
    first row, Cloudinary when there is no row, when the name is unknown and
    when the read fails. *)
Definition configured_provider (read : exn + list string) : Provider :=
  match read with
  | inr (provider_name :: _) =>
      if (Js.toLowerCase provider_name =? "s3")%string then S3 else Cloudinary
  | _ => Cloudinary
  end.

(** Every service object in the cache has been constructed. *)
Definition well_formed (s : State) : Prop :=
  forall i, instance s = Some i -> (svc_ref i < allocated s)%nat.

Definition is_console (ev : Event) : bool :=
  match ev with
  | ConsoleError _ _ | ConsoleWarn _ => true
  | _ => false
  end.

(** The state after the events [evs] have been appended to the trace. *)
Definition record (evs : list Event) (s : State) : State :=
  mkState (instance s) (allocated s) (queries s) (trace s ++ evs).

(** The entries the resize loop produces for [specs]: one per entry whose
    resize succeeds, in the order of [specs]. *)
Fixpoint generated (sh : Sharp) (buf : Buffer) (specs : list ResolutionConfig)
    : JsMap ProcessedImage :=
  match specs with
  | [] => []
  | res :: rest =>
      match resize sh buf (width res) (height res) None with
      | inr processed => (name res, processed) :: generated sh buf rest
      | inl _ => generated sh buf rest
      end
  end.

(** What the resize loop leaves in the trace: one call per entry, followed
    by a console line when the call failed. *)
Fixpoint generation_log (sh : Sharp) (buf : Buffer)
    (specs : list ResolutionConfig) : list Event :=
  match specs with
  | [] => []
  | res :: rest =>
      ResizeCall (width res) (height res) None ::
      match resize sh buf (width res) (height res) None with
      | inr _ => generation_log sh buf rest
      | inl e =>
          ConsoleError ("Failed to generate " ++ name res ++ ":") e ::
          generation_log sh buf rest
      end
  end.

(** The upload loop over [entries] stops at the first upload that fails:
    [uploaded_rows] are the rows built before it, [sweep_error] the error it
    throws, [sweep_attempted] the entries whose upload was issued. *)
Fixpoint uploaded_rows (w : World) (svc : Service) (slug : string)
    (wallpaperId : Z) (entries : JsMap ProcessedImage) : list ResolutionRow :=
  match entries with
  | [] => []
  | (n, p) :: rest =>
      match upload_outcome w svc (pi_buffer p) (sweep_options slug n) with
      | inr r =>
          resolution_row wallpaperId n p r ::
          uploaded_rows w svc slug wallpaperId rest
      | inl _ => []
      end
  end.

Fixpoint sweep_error (w : World) (svc : Service) (slug : string)
    (entries : JsMap ProcessedImage) : option exn :=
  match entries with
  | [] => None
  | (n, p) :: rest =>
      match upload_outcome w svc (pi_buffer p) (sweep_options slug n) with
      | inr _ => sweep_error w svc slug rest
      | inl e => Some e
      end
  end.

Fixpoint sweep_attempted (w : World) (svc : Service) (slug : string)
    (entries : JsMap ProcessedImage) : JsMap ProcessedImage :=
  match entries with
  | [] => []
  | (n, p) :: rest =>
      match upload_outcome w svc (pi_buffer p) (sweep_options slug n) with
      | inr _ => (n, p) :: sweep_attempted w svc slug rest
      | inl _ => [(n, p)]
      end
  end.

Definition upload_events (svc : Service) (slug : string)
    (entries : JsMap ProcessedImage) : list Event :=
  List.map
    (fun entry =>
       UploadCall svc (pi_buffer (snd entry))
         (sweep_options slug (fst entry)))
    entries.

(** The outcomes of the three core uploads, in the order they are issued. *)
Definition core_outcomes (w : World) (svc : Service) (file : UploadedFile)
    (thumbnail medium : ProcessedImage) (slug : string)
    : list (exn + UploadResult) :=
  [ upload_outcome w svc (f_buffer file)
      (core_options "wallpapers/original" slug);
    upload_outcome w svc (pi_buffer thumbnail)
      (core_options "wallpapers/thumbnails" (slug ++ "-thumb"));
    upload_outcome w svc (pi_buffer medium)
      (core_options "wallpapers/medium" (slug ++ "-medium")) ].

Definition core_calls (svc : Service) (file : UploadedFile)
    (thumbnail medium : ProcessedImage) (slug : string) : list Event :=
  [ ResizeCall 400 300 thumbnail_options;
    ResizeCall 800 600 medium_options;
    UploadCall svc (f_buffer file) (core_options "wallpapers/original" slug);
    UploadCall svc (pi_buffer thumbnail)
      (core_options "wallpapers/thumbnails" (slug ++ "-thumb"));
    UploadCall svc (pi_buffer medium)
      (core_options "wallpapers/medium" (slug ++ "-medium")) ].

Definition catalog_names : list string :=
  ["1080p"; "1440p"; "4K"; "5K"; "Mobile HD"; "Mobile 2K"; "Tablet";
   "Thumbnail"; "Medium"].

(* ------------------------------------------------------------------ *)
(** ** SlugUtil *)

Module SlugUtil.

(** The class [\w]. *)
Definition is_word (c : ascii) : bool :=
  let n := nat_of_ascii c in
  (((48 <=? n) && (n <=? 57)) || ((65 <=? n) && (n <=? 90)) ||
   ((97 <=? n) && (n <=? 122)) || (n =? 95))%nat.

Definition is_hyphen (c : ascii) : bool := (c =? "-")%char.

(** The class [[\s_-]]. *)
Definition is_separator (c : ascii) : bool :=
  Js.is_space c || (c =? "_")%char || is_hyphen c.

Fixpoint trimStart (s : string) : string :=
  match s with
  | EmptyString => EmptyString
  | String c rest => if Js.is_space c then trimStart rest else s
  end.

Fixpoint trimEnd (s : string) : string :=
  match s with
  | EmptyString => EmptyString
  | String c rest =>
      match trimEnd rest with
      | EmptyString => if Js.is_space c then EmptyString else String c EmptyString
      | rest' => String c rest'
      end
  end.

(** [s.trim()]. *)
Definition trim (s : string) : string := trimEnd (trimStart s).

(** [s.replace(/[^\w\s-]/g, '')]. *)
Fixpoint remove_special (s : string) : string :=
  match s with
  | EmptyString => EmptyString
  | String c rest =>
      if is_word c || Js.is_space c || is_hyphen c
      then String c (remove_special rest)
      else remove_special rest
  end.

(** [s.replace(/[\s_-]+/g, '-')]: [in_run] tells that the previous character
    belonged to a run that has already been replaced. *)
Fixpoint collapse_separators (in_run : bool) (s : string) : string :=
  match s with
  | EmptyString => EmptyString
  | String c rest =>
      if is_separator c
      then if in_run then collapse_separators true rest
           else String "-" (collapse_separators true rest)
      else String c (collapse_separators false rest)
  end.

Fixpoint strip_leading_hyphens (s : string) : string :=
  match s with
  | EmptyString => EmptyString
  | String c rest => if is_hyphen c then strip_leading_hyphens rest else s
  end.

Fixpoint strip_trailing_hyphens (s : string) : string :=
  match s with
  | EmptyString => EmptyString
  | String c rest =>
      match strip_trailing_hyphens rest with
      | EmptyString => if is_hyphen c then EmptyString else String c EmptyString
      | rest' => String c rest'
      end
  end.

(** [s.replace(/^-+|-+$/g, '')]. *)
Definition strip_hyphens (s : string) : string :=
  strip_trailing_hyphens (strip_leading_hyphens s).

Definition generate (text : string) : string :=
  strip_hyphens
    (collapse_separators false
       (remove_special (trim (Js.toLowerCase text)))).

(** The [while (existingSlugs.includes(slug))] loop, run for at most [fuel]
    tests. *)
Fixpoint generateUnique_loop (fuel : nat) (baseSlug : string)
    (existingSlugs : list string) (slug : string) (counter : Z)
    : option string :=
  match fuel with
  | O => None
  | S fuel' =>
      if Js.includes existingSlugs slug
      then generateUnique_loop fuel' baseSlug existingSlugs
             (baseSlug ++ "-" ++ Js.string_of_Z counter) (counter + 1)
      else Some slug
  end.

(** [generateUnique]: the loop tests [baseSlug] and then [baseSlug-1],
    [baseSlug-2], ...; [None] would say that the tests allotted (two more
    than there are existing slugs) did not suffice. *)
Definition generateUnique (baseSlug : string) (existingSlugs : list string)
    : option string :=
  generateUnique_loop (S (S (List.length existingSlugs))) baseSlug
    existingSlugs baseSlug 1.

End SlugUtil.

(** The text is made of ASCII characters, on which [toLowerCase], [\s] and
    [\w] are modelled. *)
Fixpoint is_ascii_text (s : string) : bool :=
  match s with
  | EmptyString => true
  | String c rest => (nat_of_ascii c <? 128)%nat && is_ascii_text rest
  end.

Definition is_slug_char (c : ascii) : bool :=
  let n := nat_of_ascii c in
  (((48 <=? n) && (n <=? 57)) || ((97 <=? n) && (n <=? 122)))%nat.

(** [slug_tail after_hyphen s]: [s] continues a slug whose last character
    was a hyphen ([after_hyphen], also at the start) or was not: lower-case
    letters, digits and single hyphens, not ending in a hyphen. *)
Fixpoint slug_tail (after_hyphen : bool) (s : string) : bool :=
  match s with
  | EmptyString => negb after_hyphen
  | String c rest =>
      if SlugUtil.is_hyphen c then negb after_hyphen && slug_tail true rest
      else is_slug_char c && slug_tail false rest
  end.

Fixpoint all_chars (P : ascii -> bool) (s : string) : bool :=
  match s with
  | EmptyString => true
  | String c rest => P c && all_chars P rest
  end.

Definition is_upper (c : ascii) : bool :=
  let n := nat_of_ascii c in ((65 <=? n) && (n <=? 90))%nat.

(** What [remove_special] keeps, when no capital is left. *)
Definition is_kept_lower (c : ascii) : bool :=
  negb (is_upper c) &&
  (SlugUtil.is_word c || Js.is_space c || SlugUtil.is_hyphen c).

(** Slug characters and hyphens, no hyphen next to another. *)
Fixpoint single_hyphens (after_hyphen : bool) (s : string) : bool :=
  match s with
  | EmptyString => true
  | String c rest =>
      if SlugUtil.is_hyphen c
      then negb after_hyphen && single_hyphens true rest
      else is_slug_char c && single_hyphens false rest
  end.

(** The candidate [baseSlug-k] of [generateUnique]. *)
Definition numbered (baseSlug : string) (k : Z) : string :=
  baseSlug ++ "-" ++ Js.string_of_Z k.

(** A slug: empty, or words of [a-z0-9] joined by single hyphens. *)
Definition is_slug (s : string) : bool :=
  match s with
  | EmptyString => true
  | _ => slug_tail true s
  end.

(* ------------------------------------------------------------------ *)
(** ** The rest of StorageFactory, S3Service and CloudinaryService *)

(** [StorageFactory.getServiceById]; [lookup id] is the [provider_name]
    column of what [SELECT provider_name FROM storage_providers WHERE id = ?]
    returns (a query of another kind than [ProviderQuery], which the trace
    does not record). *)
Definition getServiceById (lookup : Z -> exn + list string) (providerId : Z)
    : M Service :=
  rows <- lift (lookup providerId) ;;
  match rows with
  | [] => throw (mkExn ProviderFailure "Storage provider not found")
  | provider_name :: _ => StorageFactory.createService provider_name
  end.

Record UrlOptions := mkUrlOptions {
  url_width : option Z;
  url_height : option Z;
  url_quality : option Z;
  url_format : option string
}.

Definition S3Service_getUrl (w : World) (publicId : string)
    (options : option UrlOptions) : string :=
  "https://" ++ AWS_S3_BUCKET w ++ ".s3." ++ AWS_REGION w ++
  ".amazonaws.com/" ++ publicId.

(** An entry of the [resolutions] array of [S3Service.generateResolutions];
    [null] sizes are [None]. *)
Record S3Resolution := mkS3Resolution {
  s3_name : string;
  s3_width : option Z;
  s3_height : option Z
}.

Definition S3_RESOLUTIONS : list S3Resolution :=
  [ mkS3Resolution "original" None None;
    mkS3Resolution "1080p" (Some 1920) (Some 1080);
    mkS3Resolution "1440p" (Some 2560) (Some 1440);
    mkS3Resolution "4K" (Some 3840) (Some 2160);
    mkS3Resolution "mobile" (Some 1080) (Some 1920);
    mkS3Resolution "tablet" (Some 1536) (Some 2048) ].

Definition truthy_size (x : option Z) : option Z :=
  match x with
  | Some v => if Js.truthy v then Some v else None
  | None => None
  end.

(** The first half of the [try] block: the buffer to upload and the size to
    report. *)
Definition S3_process (w : World) (file : Buffer) (res : S3Resolution)
    : exn + (Buffer * option Z * option Z) :=
  match truthy_size (s3_width res), truthy_size (s3_height res) with
  | Some rw, Some rh =>
      match sharp_toBuffer (sharp w) file
              (mkPipeline rw rh Cover (Some (Jpeg, 90))) with
      | inl e => inl e
      | inr processedBuffer =>
          match sharp_metadata (sharp w) processedBuffer with
          | inl e => inl e
          | inr metadata =>
              inr (processedBuffer, md_width metadata, md_height metadata)
          end
      end
  | _, _ =>
      match sharp_metadata (sharp w) file with
      | inl e => inl e
      | inr metadata => inr (file, md_width metadata, md_height metadata)
      end
  end.

(** The [filename] of an entry; [random] is
    [crypto.randomBytes(16).toString('hex')] at this iteration. *)
Definition S3_filename (filename : option string) (random : string)
    (res : S3Resolution) : string :=
  match filename with
  | Some (String c f) => String c f ++ "-" ++ s3_name res
  | _ => random ++ "-" ++ s3_name res
  end.

Definition S3_entry_options (folder filename : option string)
    (random : string) (res : S3Resolution) : UploadOptions :=
  mkUploadOptions folder (Some (S3_filename filename random res))
    (Some "jpeg").

(** The body of the [try] block for one entry. *)
Definition S3_generate_entry (w : World) (svc : Service) (file : Buffer)
    (folder filename : option string) (random : string) (res : S3Resolution)
    : M UploadResult :=
  processed <- lift (S3_process w file res) ;;
  let '(processedBuffer, rw, rh) := processed in
  let options := S3_entry_options folder filename random res in
  emit (UploadCall svc processedBuffer options) ;;;
  result <- lift (S3Service_upload w processedBuffer options) ;;
  ret (mkUploadResult (url result) (publicId result) (ur_format result)
         rw rh (ur_size result)).

(** The [for (const res of resolutions)] loop; [random i] is the random
    name drawn at iteration [i]. *)
Fixpoint S3_generate_loop (w : World) (svc : Service) (file : Buffer)
    (folder filename : option string) (random : nat -> string) (i : nat)
    (resolutions : list S3Resolution) (results : list UploadResult)
    : M (list UploadResult) :=
  match resolutions with
  | [] => ret results
  | res :: rest =>
      results' <-
        try_catch
          (result <-
             S3_generate_entry w svc file folder filename (random i) res ;;
           ret (results ++ [result])%list)
          (fun error =>
             emit (ConsoleError
                     ("Failed to generate " ++ s3_name res ++ " resolution:")
                     error) ;;;
             ret results) ;;
      S3_generate_loop w svc file folder filename random (S i) rest results'
  end.

Definition S3Service_generateResolutions (w : World) (svc : Service)
    (file : Buffer) (folder filename : option string)
    (random : nat -> string) : M (list UploadResult) :=
  S3_generate_loop w svc file folder filename random 0 S3_RESOLUTIONS [].

(** What [CloudinaryService.getUrl] hands to [cloudinary.url]: the options
    that are truthy. *)
Record Transformations := mkTransformations {
  t_width : option Z;
  t_height : option Z;
  t_quality : option Z;
  t_format : option string
}.

Definition transformations_of (options : option UrlOptions)
    : Transformations :=
  {| t_width := truthy_size (opt_field url_width options);
     t_height := truthy_size (opt_field url_height options);
     t_quality := truthy_size (opt_field url_quality options);
     t_format := or_opt (opt_field url_format options) None |}.

(** [cloudinary_url] is [cloudinary.url] of the Cloudinary SDK. *)
Definition CloudinaryService_getUrl
    (cloudinary_url : string -> Transformations -> exn + string)
    (publicId : string) (options : option UrlOptions) : exn + string :=
  cloudinary_url publicId (transformations_of options).

Definition CLOUDINARY_RESOLUTIONS : list ResolutionConfig :=
  [ mkRes "1080p" 1920 1080;
    mkRes "1440p" 2560 1440;
    mkRes "4K" 3840 2160;
    mkRes "Mobile" 1080 1920;
    mkRes "Tablet" 1536 2048 ].

Definition publicId_text (r : UploadResult) : string :=
  match publicId r with
  | Some id => id
  | None => "undefined"
  end.

Definition cloudinary_derived
    (cloudinary_url : string -> Transformations -> exn + string)
    (originalUpload : UploadResult) (res : ResolutionConfig)
    : exn + UploadResult :=
  match
    CloudinaryService_getUrl cloudinary_url (publicId_text originalUpload)
      (Some (mkUrlOptions (Some (width res)) (Some (height res)) (Some 90)
               None))
  with
  | inl e => inl e
  | inr resizedUrl =>
      inr (mkUploadResult resizedUrl
             (Some (publicId_text originalUpload ++ "-" ++
                    Js.toLowerCase (name res)))
             None (Some (width res)) (Some (height res)) None)
  end.

Fixpoint Cloudinary_generate_loop
    (cloudinary_url : string -> Transformations -> exn + string)
    (originalUpload : UploadResult) (resolutions : list ResolutionConfig)
    (results : list UploadResult) : M (list UploadResult) :=
  match resolutions with
  | [] => ret results
  | res :: rest =>
      results' <-
        try_catch
          (derived <- lift (cloudinary_derived cloudinary_url
                              originalUpload res) ;;
           ret (results ++ [derived])%list)
          (fun error =>
             emit (ConsoleError
                     ("Failed to generate " ++ name res ++ " resolution:")
                     error) ;;;
             ret results) ;;
      Cloudinary_generate_loop cloudinary_url originalUpload rest results'
  end.

(** The options of the upload of the original:
    [filename ? `${filename}-original` : undefined]. *)
Definition Cloudinary_original_options (folder filename : option string)
    : UploadOptions :=
  mkUploadOptions folder
    (match filename with
     | Some (String c f) => Some (String c f ++ "-original")
     | _ => None
     end) None.

Definition CloudinaryService_generateResolutions (w : World)
    (cloudinary_url : string -> Transformations -> exn + string)
    (svc : Service) (file : Buffer) (folder filename : option string)
    : M (list UploadResult) :=
  let options := Cloudinary_original_options folder filename in
  emit (UploadCall svc file options) ;;;
  originalUpload <- lift (CloudinaryService_upload w file options) ;;
  Cloudinary_generate_loop cloudinary_url originalUpload
    CLOUDINARY_RESOLUTIONS [originalUpload].

(** What one iteration of [S3Service.generateResolutions] comes to: the
    entry's result, or the error its [catch] logs. *)
Definition S3_entry_outcome (w : World) (file : Buffer)
    (folder filename : option string) (random : string) (res : S3Resolution)
    : exn + UploadResult :=
  match S3_process w file res with
  | inl e => inl e
  | inr (processedBuffer, rw, rh) =>
      match
        S3Service_upload w processedBuffer
          (S3_entry_options folder filename random res)
      with
      | inl e => inl e
      | inr result =>
          inr (mkUploadResult (url result) (publicId result)
                 (ur_format result) rw rh (ur_size result))
      end
  end.

Fixpoint S3_outcomes (w : World) (file : Buffer)
    (folder filename : option string) (random : nat -> string) (i : nat)
    (resolutions : list S3Resolution) : list (exn + UploadResult) :=
  match resolutions with
  | [] => []
  | res :: rest =>
      S3_entry_outcome w file folder filename (random i) res ::
      S3_outcomes w file folder filename random (S i) rest
  end.

(** The trace of one iteration: the upload, when the entry got that far,
    and the console line, when it failed. *)
Definition S3_entry_log (w : World) (svc : Service) (file : Buffer)
    (folder filename : option string) (random : string) (res : S3Resolution)
    : list Event :=
  let failure e :=
    ConsoleError ("Failed to generate " ++ s3_name res ++ " resolution:") e in
  match S3_process w file res with
  | inl e => [failure e]
  | inr (processedBuffer, _, _) =>
      let options := S3_entry_options folder filename random res in
      UploadCall svc processedBuffer options ::
      match S3Service_upload w processedBuffer options with
      | inl e => [failure e]
      | inr _ => []
      end
  end.

Fixpoint S3_log (w : World) (svc : Service) (file : Buffer)
    (folder filename : option string) (random : nat -> string) (i : nat)
    (resolutions : list S3Resolution) : list Event :=
  match resolutions with
  | [] => []
  | res :: rest =>
      (S3_entry_log w svc file folder filename (random i) res ++
       S3_log w svc file folder filename random (S i) rest)%list
  end.

Fixpoint cloudinary_log (cloudinary_url : string -> Transformations -> exn + string)
    (originalUpload : UploadResult) (resolutions : list ResolutionConfig)
    : list Event :=
  match resolutions with
  | [] => []
  | res :: rest =>
      match cloudinary_derived cloudinary_url originalUpload res with
      | inl e =>
          ConsoleError ("Failed to generate " ++ name res ++ " resolution:") e
          :: cloudinary_log cloudinary_url originalUpload rest
      | inr _ => cloudinary_log cloudinary_url originalUpload rest
      end
  end.

(** The successes of a list of outcomes, in order. *)
Fixpoint successes {A} (outcomes : list (exn + A)) : list A :=
  match outcomes with
  | [] => []
  | inr a :: rest => a :: successes rest
  | inl _ :: rest => successes rest
  end.

Definition is_console_error (ev : Event) : bool :=
  match ev with
  | ConsoleError _ _ => true
  | _ => false
  end.

Definition is_upload (ev : Event) : bool :=
  match ev with
  | UploadCall _ _ _ => true
  | _ => false
  end.

Definition is_resize (ev : Event) : bool :=
  match ev with
  | ResizeCall _ _ _ => true
  | _ => false
  end.

(* ------------------------------------------------------------------ *)
(** * Properties *)

(** ** JavaScript primitives *)


Lemma channels_round_trip_below_256 :
  forallb (fun n => channel_round_trips (Z.of_nat n)) (seq 0 256) = true.
Proof. vm_compute. reflexivity. Qed.

Lemma hex2_parse (v : Z) :
  0 <= v <= 255 ->
  exists hi lo,
    hex2 v = String hi (String lo EmptyString) /\
    parse_channel hi lo = Some v.
Proof.
  intros Hv.
  pose proof channels_round_trip_below_256 as Hall.
  rewrite forallb_forall in Hall.
  specialize (Hall (Z.to_nat v)).
  rewrite Z2Nat.id in Hall by lia.
  assert (Hin : In (Z.to_nat v) (seq 0 256)) by (apply in_seq; lia).
  apply Hall in Hin. unfold channel_round_trips in Hin.
  destruct (hex2 v) as [|hi [|lo [|]]]; try discriminate.
  destruct (parse_channel hi lo) as [v'|] eqn:Hp; try discriminate.
  apply Z.eqb_eq in Hin. subst v'. eauto.
Qed.

(** ** ImageProcessingService.resize *)










(** ** ImageProcessingService.extractPrimaryColor *)

Lemma hex_color_of_channels (r g b : Z) :
  0 <= r <= 255 -> 0 <= g <= 255 -> 0 <= b <= 255 ->
  parse_hex_color ("#" ++ hex2 r ++ hex2 g ++ hex2 b) = Some (r, g, b).
Proof.
  intros Hr Hg Hb.
  destruct (hex2_parse r Hr) as (r1 & r2 & -> & Hpr).
  destruct (hex2_parse g Hg) as (g1 & g2 & -> & Hpg).
  destruct (hex2_parse b Hb) as (b1 & b2 & -> & Hpb).
  cbn [append parse_hex_color]. rewrite Hpr, Hpg, Hpb. reflexivity.
Qed.

(** With fewer than three channels the [try] block throws. *)
Lemma extractPrimaryColor_try_outcome (sh : Sharp) (buf : Buffer) :
  match sharp_stats sh buf with
  | inl e => extractPrimaryColor_try sh buf = inl e
  | inr (mkStats (cr :: cg :: cb :: _)) =>
      extractPrimaryColor_try sh buf =
      inr ("#" ++ hex2 (Js.round (mean cr)) ++ hex2 (Js.round (mean cg)) ++
           hex2 (Js.round (mean cb)))
  | inr _ => exists e, extractPrimaryColor_try sh buf = inl e
  end.
Proof.
  unfold extractPrimaryColor_try.
  destruct (sharp_stats sh buf) as [e|[chs]]; [reflexivity|].
  destruct chs as [|cr [|cg [|cb rest]]]; cbn; eauto.
Qed.




(** ** ImageProcessingService.validate *)

Lemma or_str_empty (x : option string) :
  Js.or_str x "" = match x with Some f => f | None => "" end.
Proof. destruct x as [[|c f]|]; reflexivity. Qed.

Lemma check_format_length (options : option ValidateOptions) (md : Metadata)
    (errs : list string) :
  List.length (check_format options md errs) =
  (List.length errs + if format_not_allowed options md then 1 else 0)%nat.
Proof.
  unfold check_format, format_not_allowed, Js.includes, actual_format.
  rewrite or_str_empty.
  destruct (opt_field allowedFormats options) as [allowed|]; [|simpl; lia].
  destruct (negb _); [rewrite length_app; reflexivity | simpl; lia].
Qed.

Lemma exceeds_positive (limit actual : option Z) :
  positive_limit limit ->
  exceeds limit actual =
  if exceeded limit actual then limit else None.
Proof.
  intros Hpos. unfold exceeds, exceeded, Js.truthy.
  destruct limit as [l|]; [|reflexivity].
  destruct actual as [a|]; [|reflexivity].
  specialize (Hpos l eq_refl).
  destruct (l <? a) eqn:Hla.
  - apply Z.ltb_lt in Hla.
    replace (l =? 0) with false by (symmetry; apply Z.eqb_neq; lia).
    replace (a =? 0) with false by (symmetry; apply Z.eqb_neq; lia).
    replace (a >? l) with true by (symmetry; apply Z.gtb_lt; lia).
    reflexivity.
  - apply Z.ltb_ge in Hla.
    replace (a >? l) with false
      by (symmetry; rewrite Z.gtb_ltb; apply Z.ltb_ge; lia).
    rewrite !andb_false_r. reflexivity.
Qed.

Lemma check_width_length (options : option ValidateOptions) (md : Metadata)
    (errs : list string) :
  positive_limit (opt_field maxWidth options) ->
  List.length (check_width options md errs) =
  (List.length errs +
   if exceeded (opt_field maxWidth options) (md_width md) then 1 else 0)%nat.
Proof.
  intros Hpos. unfold check_width. rewrite exceeds_positive by assumption.
  destruct (exceeded _ _) eqn:Hex; [|simpl; lia].
  destruct (opt_field maxWidth options); [|discriminate].
  rewrite length_app. reflexivity.
Qed.

Lemma check_height_length (options : option ValidateOptions) (md : Metadata)
    (errs : list string) :
  positive_limit (opt_field maxHeight options) ->
  List.length (check_height options md errs) =
  (List.length errs +
   if exceeded (opt_field maxHeight options) (md_height md) then 1 else 0)%nat.
Proof.
  intros Hpos. unfold check_height. rewrite exceeds_positive by assumption.
  destruct (exceeded _ _) eqn:Hex; [|simpl; lia].
  destruct (opt_field maxHeight options); [|discriminate].
  rewrite length_app. reflexivity.
Qed.

Lemma check_size_length (options : option ValidateOptions) (buf : Buffer)
    (errs : list string) :
  positive_limit (opt_field maxSize options) ->
  List.length (check_size options buf errs) =
  (List.length errs +
   if exceeded (opt_field maxSize options) (Some (buffer_length buf))
   then 1 else 0)%nat.
Proof.
  intros Hpos. unfold check_size, exceeded, Js.truthy.
  destruct (opt_field maxSize options) as [l|]; [|simpl; lia].
  specialize (Hpos l eq_refl).
  replace (l =? 0) with false by (symmetry; apply Z.eqb_neq; lia).
  rewrite Z.gtb_ltb. cbn [negb andb].
  destruct (l <? buffer_length buf); [|simpl; lia].
  rewrite length_app. reflexivity.
Qed.

Lemma check_format_reports (options : option ValidateOptions) (md : Metadata)
    (errs : list string) :
  check_format options md errs =
  (errs ++
   if format_not_allowed options md
   then [("Invalid format. Allowed: " ++
          Js.join ", " (allowed_list options))%string]
   else [])%list.
Proof.
  unfold check_format, format_not_allowed, allowed_list, Js.includes,
    actual_format.
  rewrite or_str_empty.
  destruct (opt_field allowedFormats options) as [allowed|];
    [|symmetry; apply app_nil_r].
  destruct (negb _); [reflexivity | symmetry; apply app_nil_r].
Qed.

Lemma exceeds_over (limit actual : option Z) :
  exceeds limit actual = if over limit actual then limit else None.
Proof.
  unfold exceeds, over, in_force, Js.truthy.
  destruct limit as [l|]; [|reflexivity].
  destruct actual as [a|]; [|destruct (l =? 0); reflexivity].
  rewrite Z.gtb_ltb.
  destruct (l =? 0); [reflexivity|].
  destruct (a =? 0); [reflexivity|].
  destruct (l <? a); reflexivity.
Qed.

Lemma check_width_reports (options : option ValidateOptions) (md : Metadata)
    (errs : list string) :
  check_width options md errs =
  (errs ++
   if over (opt_field maxWidth options) (md_width md)
   then [("Width exceeds maximum of " ++
          Js.string_of_Z (limit_value (opt_field maxWidth options)) ++
          "px")%string]
   else [])%list.
Proof.
  unfold check_width. rewrite exceeds_over.
  destruct (over _ _) eqn:Hover; [|symmetry; apply app_nil_r].
  destruct (opt_field maxWidth options); [reflexivity|discriminate].
Qed.

Lemma check_height_reports (options : option ValidateOptions) (md : Metadata)
    (errs : list string) :
  check_height options md errs =
  (errs ++
   if over (opt_field maxHeight options) (md_height md)
   then [("Height exceeds maximum of " ++
          Js.string_of_Z (limit_value (opt_field maxHeight options)) ++
          "px")%string]
   else [])%list.
Proof.
  unfold check_height. rewrite exceeds_over.
  destruct (over _ _) eqn:Hover; [|symmetry; apply app_nil_r].
  destruct (opt_field maxHeight options); [reflexivity|discriminate].
Qed.

Lemma check_size_reports (options : option ValidateOptions) (buf : Buffer)
    (errs : list string) :
  check_size options buf errs =
  (errs ++
   if over_size (opt_field maxSize options) (buffer_length buf)
   then [("File size exceeds maximum of " ++
          Js.toFixed2 (limit_value (opt_field maxSize options))
            (1024 * 1024) ++
          "MB")%string]
   else [])%list.
Proof.
  unfold check_size, over_size, in_force, Js.truthy.
  destruct (opt_field maxSize options) as [l|]; [|symmetry; apply app_nil_r].
  rewrite Z.gtb_ltb.
  destruct (l =? 0); [symmetry; apply app_nil_r|]. cbn [negb andb].
  destruct (l <? buffer_length buf); [reflexivity|symmetry; apply app_nil_r].
Qed.

(** C6, as the code has it. [validate] returns a result for every buffer and
    every options and never throws. A limit of zero counts as not supplied,
    and a width or height the codec reports as zero as unknown. On a
    decodable image the messages are exactly those of the violated
    constraints, one each and in the order format, width, height, byte size:
    [Invalid format. Allowed: <formats>], [Width exceeds maximum of <n>px],
    [Height exceeds maximum of <n>px] and
    [File size exceeds maximum of <n>MB]; [valid] is false exactly when
    there is one. *)
Theorem validate_reports_each_violation (sh : Sharp) (buf : Buffer)
    (options : option ValidateOptions) :
  exists r,
    validate sh buf options = inr r /\
    match sharp_metadata sh buf with
    | inr md =>
        errors r = List.map snd (violated_reports options md buf) /\
        List.length (errors r) =
        List.length (violated_reports options md buf) /\
        valid r =
        match violated_reports options md buf with
        | [] => true
        | _ :: _ => false
        end
    | inl _ => r = {| valid := false; errors := ["Invalid image file"] |}
    end.
Proof.
  unfold validate.
  destruct (sharp_metadata sh buf) as [e|md] eqn:Hmd.
  - eexists. split; reflexivity.
  - eexists. split; [reflexivity|]. cbn [errors valid].
    assert (Herrs :
      check_size options buf
        (check_height options md
           (check_width options md (check_format options md []))) =
      List.map snd (violated_reports options md buf)).
    { rewrite check_size_reports, check_height_reports, check_width_reports,
        check_format_reports.
      unfold violated_reports, constraint_reports.
      destruct (format_not_allowed options md);
        destruct (over (opt_field maxWidth options) (md_width md));
        destruct (over (opt_field maxHeight options) (md_height md));
        destruct (over_size (opt_field maxSize options) (buffer_length buf));
        reflexivity. }
    rewrite Herrs, length_map.
    split; [reflexivity|]. split; [reflexivity|].
    destruct (violated_reports options md buf); reflexivity.
Qed.

Lemma validate_reports_each_violation_witness :
  validate Sample.codec Sample.animation
    (Some (mkValidateOptions (Some 1000) (Some 10000) (Some 1048576)
             (Some ["jpeg"; "png"]))) =
  inr {| valid := false;
         errors := ["Invalid format. Allowed: jpeg, png";
                    "Width exceeds maximum of 1000px"] |}.
Proof.
  destruct (validate_reports_each_violation Sample.codec Sample.animation
              (Some (mkValidateOptions (Some 1000) (Some 10000) (Some 1048576)
                       (Some ["jpeg"; "png"]))))
    as (r & Hrun & Hcase).
  rewrite Hrun. destruct r as [v errs].
  vm_compute in Hcase. destruct Hcase as (Herrs & _ & Hvalid).
  rewrite Herrs, Hvalid. reflexivity.
Defined.

(** C6, as the specification has it, fails: with limits of zero, a
    4000 x 3000 image of eight bytes exceeds all three, and [validate]
    answers [valid = true] without a message. *)
Lemma validate_ignores_zero_limits :
  sharp_metadata Sample.codec Sample.photo =
  inr (mkMetadata (Some 4000) (Some 3000) (Some "jpeg")) /\
  buffer_length Sample.photo = 8 /\
  validate Sample.codec Sample.photo
    (Some (mkValidateOptions (Some 0) (Some 0) (Some 0) None)) =
  inr {| valid := true; errors := [] |}.
Proof.
  split; [reflexivity|]. split; reflexivity.
Qed.

(** C10. On a buffer the codec cannot decode, [validate] answers
    [valid = false] with the single message [Invalid image file], whatever
    the options: no size or format message is added, also when the buffer
    is longer than [maxSize]. *)
Theorem validate_undecodable_single_message (sh : Sharp) (buf : Buffer)
    (options : option ValidateOptions) (e : exn) :
  sharp_metadata sh buf = inl e ->
  validate sh buf options =
  inr {| valid := false; errors := ["Invalid image file"] |}.
Proof.
  intros Hmd. unfold validate. rewrite Hmd. reflexivity.
Qed.

Lemma validate_undecodable_single_message_witness :
  buffer_length Sample.garbage > 4 /\
  validate Sample.codec Sample.garbage
    (Some (mkValidateOptions None None (Some 4) (Some ["jpeg"]))) =
  inr {| valid := false; errors := ["Invalid image file"] |}.
Proof.
  split; [reflexivity|].
  apply (validate_undecodable_single_message Sample.codec Sample.garbage _
           Sample.not_an_image).
  reflexivity.
Defined.

(** ** StorageFactory *)

Lemma getActiveService_hit (w : World) (s : State) (i : Service) :
  instance s = Some i ->
  StorageFactory.getActiveService w s = (inr i, s).
Proof.
  intros Hi. unfold StorageFactory.getActiveService, bind,
    StorageFactory.get_instance.
  rewrite Hi. reflexivity.
Qed.

(** A call on an empty cache issues one provider query, constructs one
    service object of the configured class and caches it. *)
Lemma getActiveService_miss (w : World) (s : State) :
  instance s = None ->
  exists log,
    let svc :=
      mkService (allocated s)
        (configured_provider (provider_rows w (queries s))) in
    StorageFactory.getActiveService w s =
    (inr svc,
     mkState (Some svc) (S (allocated s)) (S (queries s))
       (trace s ++ ProviderQuery :: log)) /\
    Forall (fun ev => is_console ev = true) log /\
    forall e,
      provider_rows w (queries s) = inl e ->
      log = [ConsoleError "Failed to get storage provider from database:" e].
Proof.
  destruct s as [inst alloc q tr]. cbn [instance allocated queries trace].
  intros ->.
  unfold StorageFactory.getActiveService, bind, try_catch,
    StorageFactory.get_instance, StorageFactory.query_active_provider.
  cbn [instance allocated queries trace].
  destruct (provider_rows w q) as [e|rows] eqn:Hrows.
  - exists [ConsoleError "Failed to get storage provider from database:" e].
    cbn. rewrite <- app_assoc. cbn. repeat split; auto.
    intros e' He'. inversion He'. reflexivity.
  - destruct rows as [|provider_name rest]; cbn [configured_provider].
    + exists []. cbn. repeat split; auto; intros; discriminate.
    + unfold StorageFactory.createService.
      destruct (Js.toLowerCase provider_name =? "cloudinary")%string eqn:Hc.
      * apply String.eqb_eq in Hc. rewrite Hc.
        exists []. cbn. repeat split; auto; intros; discriminate.
      * destruct (Js.toLowerCase provider_name =? "s3")%string eqn:Hs3.
        -- exists []. cbn. repeat split; auto; intros; discriminate.
        -- exists [ConsoleWarn ("Unknown storage provider: " ++ provider_name
                               ++ ", falling back to Cloudinary")].
           cbn. rewrite <- app_assoc. cbn.
           repeat split; auto; intros; discriminate.
Qed.

Lemma getActiveService_returns (w : World) (s : State) :
  exists svc s1,
    StorageFactory.getActiveService w s = (inr svc, s1) /\
    instance s1 = Some svc /\
    (queries s1 <= S (queries s))%nat /\
    (well_formed s -> well_formed s1).
Proof.
  destruct (instance s) as [i|] eqn:Hinst.
  - exists i, s. rewrite (getActiveService_hit w s i Hinst). auto.
  - destruct (getActiveService_miss w s Hinst) as (log & Hrun & _).
    cbn zeta in Hrun. do 2 eexists. split; [exact Hrun|].
    cbn. repeat split; auto.
    intros _ i Hi. inversion Hi; subst. cbn. lia.
Qed.

(** C9. Whatever the state of the cache, [getActiveService] returns a
    service; a second call with no [reset] in between returns the very same
    object and leaves the state untouched, so the two calls read the
    configuration at most once. After [reset] the cache is empty and the
    next call reads the configuration again, exactly once, and returns a
    newly constructed service of the configured class. *)
Theorem getActiveService_cached_until_reset (w : World) (s : State) :
  exists svc s1,
    StorageFactory.getActiveService w s = (inr svc, s1) /\
    StorageFactory.getActiveService w s1 = (inr svc, s1) /\
    (queries s1 <= S (queries s))%nat /\
    exists s2 log,
      StorageFactory.reset s1 = (inr tt, s2) /\
      instance s2 = None /\
      let fresh :=
        mkService (allocated s1)
          (configured_provider (provider_rows w (queries s1))) in
      StorageFactory.getActiveService w s2 =
      (inr fresh,
       mkState (Some fresh) (S (allocated s1)) (S (queries s1))
         (trace s1 ++ ProviderQuery :: log)) /\
      Forall (fun ev => is_provider_query ev = false) log /\
      (well_formed s -> svc_ref fresh <> svc_ref svc).
Proof.
  destruct (getActiveService_returns w s) as (svc & s1 & Hrun & Hinst & Hq & Hwf).
  exists svc, s1. split; [exact Hrun|].
  split; [apply getActiveService_hit; exact Hinst|]. split; [exact Hq|].
  destruct (getActiveService_miss w
              (mkState None (allocated s1) (queries s1) (trace s1)) eq_refl)
    as (log & Hmiss & Hlog & _).
  cbn [allocated queries trace] in Hmiss.
  exists (mkState None (allocated s1) (queries s1) (trace s1)), log.
  split; [reflexivity|]. split; [reflexivity|]. cbn zeta.
  split; [exact Hmiss|].
  split; [eapply Forall_impl; [|exact Hlog]; intros [] Hev;
          (reflexivity || discriminate Hev)|].
  intros Hs. specialize (Hwf Hs svc Hinst). cbn. lia.
Qed.

Lemma getActiveService_cached_until_reset_witness :
  exists svc s1,
    StorageFactory.getActiveService
      (Sample.world [] Sample.cloudinary_rows) Sample.boot = (inr svc, s1) /\
    StorageFactory.getActiveService
      (Sample.world [] Sample.cloudinary_rows) s1 = (inr svc, s1) /\
    svc_ref svc <> allocated s1.
Proof.
  destruct (getActiveService_cached_until_reset
              (Sample.world [] Sample.cloudinary_rows) Sample.boot)
    as (svc & s1 & Hrun & Hagain & _ & _ & _ & _ & _ & _ & _ & Hfresh).
  exists svc, s1. split; [exact Hrun|]. split; [exact Hagain|].
  intros Heq. apply Hfresh.
  - intros i Hi. discriminate Hi.
  - cbn. symmetry. exact Heq.
Defined.

(** C3. When the configuration read fails on an empty cache,
    [getActiveService] logs the failure and returns a newly constructed
    Cloudinary service, which it keeps in the cache like any other
    selection. The fallback is not permanent: [reset] empties the cache, and
    the next call reads the configuration again and returns a new service
    of the class the configuration now names, not the fallback object. *)
Theorem getActiveService_fallback_until_reset (w : World) (s : State)
    (e : exn) :
  instance s = None ->
  provider_rows w (queries s) = inl e ->
  exists fallback s1,
    StorageFactory.getActiveService w s = (inr fallback, s1) /\
    svc_class fallback = Cloudinary /\
    instance s1 = Some fallback /\
    trace s1 =
    (trace s ++
     [ProviderQuery;
      ConsoleError "Failed to get storage provider from database:" e])%list /\
    exists s2 log,
      StorageFactory.reset s1 = (inr tt, s2) /\
      instance s2 = None /\
      let fresh :=
        mkService (allocated s1)
          (configured_provider (provider_rows w (S (queries s)))) in
      StorageFactory.getActiveService w s2 =
      (inr fresh,
       mkState (Some fresh) (S (allocated s1)) (S (S (queries s)))
         (trace s1 ++ ProviderQuery :: log)) /\
      fresh <> fallback.
Proof.
  intros Hinst Hfail.
  destruct (getActiveService_miss w s Hinst) as (log & Hrun & _ & Hlog).
  cbn zeta in Hrun. rewrite (Hlog e Hfail) in Hrun. rewrite Hfail in Hrun.
  do 2 eexists. split; [exact Hrun|]. split; [reflexivity|].
  split; [reflexivity|]. split; [reflexivity|].
  cbn [allocated queries trace].
  destruct (getActiveService_miss w
              (mkState None (S (allocated s)) (S (queries s))
                 (trace s ++
                  [ProviderQuery;
                   ConsoleError
                     "Failed to get storage provider from database:" e]))
              eq_refl)
    as (log' & Hmiss & _).
  cbn [allocated queries trace] in Hmiss. cbn zeta in Hmiss.
  eexists. exists log'. split; [reflexivity|]. split; [reflexivity|].
  cbn zeta. split; [exact Hmiss|].
  intros Heq. inversion Heq. lia.
Qed.

Lemma getActiveService_fallback_until_reset_witness :
  exists fallback s1 s2 fresh s3,
    StorageFactory.getActiveService
      (Sample.world [] Sample.flaky_rows) Sample.boot = (inr fallback, s1) /\
    svc_class fallback = Cloudinary /\
    StorageFactory.reset s1 = (inr tt, s2) /\
    StorageFactory.getActiveService
      (Sample.world [] Sample.flaky_rows) s2 = (inr fresh, s3) /\
    svc_class fresh = S3.
Proof.
  destruct (getActiveService_fallback_until_reset
              (Sample.world [] Sample.flaky_rows) Sample.boot
              Sample.database_down eq_refl eq_refl)
    as (fallback & s1 & Hrun & Hcls & _ & _ & s2 & log & Hreset & _ & Hnext
        & _).
  exists fallback, s1, s2. do 2 eexists.
  split; [exact Hrun|]. split; [exact Hcls|]. split; [exact Hreset|].
  split; [exact Hnext|]. reflexivity.
Defined.

(** ** Running computations *)

Lemma bind_inr {A B} (m : M A) (k : A -> M B) (s s' : State) (a : A) :
  m s = (inr a, s') -> bind m k s = k a s'.
Proof. intros H. unfold bind. rewrite H. reflexivity. Qed.

Lemma bind_inl {A B} (m : M A) (k : A -> M B) (s s' : State) (e : exn) :
  m s = (inl e, s') -> bind m k s = (inl e, s').
Proof. intros H. unfold bind. rewrite H. reflexivity. Qed.

Lemma record_nil (s : State) : record [] s = s.
Proof. destruct s. unfold record. cbn. rewrite app_nil_r. reflexivity. Qed.

Lemma record_record (a b : list Event) (s : State) :
  record b (record a s) = record (a ++ b) s.
Proof. unfold record. cbn. rewrite app_assoc. reflexivity. Qed.

Lemma emit_run (ev : Event) (s : State) : emit ev s = (inr tt, record [ev] s).
Proof. reflexivity. Qed.

Lemma resize_call_run (w : World) (buf : Buffer) (wd ht : Z)
    (options : option ResizeOptions) (s : State) :
  resize_call w buf wd ht options s =
  (resize (sharp w) buf wd ht options, record [ResizeCall wd ht options] s).
Proof. reflexivity. Qed.

Lemma upload_run (w : World) (svc : Service) (file : Buffer)
    (options : UploadOptions) (s : State) :
  upload w svc file options s =
  (upload_outcome w svc file options, record [UploadCall svc file options] s).
Proof. reflexivity. Qed.

(** ** ImageProcessingService.generateAllResolutions *)

Lemma map_set_fresh {V} (m : JsMap V) (k : string) (v : V) :
  ~ In k (map_keys m) -> map_set m k v = (m ++ [(k, v)])%list.
Proof.
  induction m as [|[k' v'] m IH]; intros Hfresh; cbn; [reflexivity|].
  cbn in Hfresh. destruct (String.eqb_spec k' k) as [->|_].
  - exfalso. apply Hfresh. auto.
  - rewrite IH by tauto. reflexivity.
Qed.

Lemma generate_loop_run (w : World) (buf : Buffer)
    (specs : list ResolutionConfig) :
  NoDup (List.map name specs) ->
  forall (results : JsMap ProcessedImage) (s : State),
    (forall res, In res specs -> ~ In (name res) (map_keys results)) ->
    generate_loop w buf specs results s =
    (inr (results ++ generated (sharp w) buf specs)%list,
     record (generation_log (sharp w) buf specs) s).
Proof.
  induction specs as [|res rest IH]; intros Hnodup results s Hfresh.
  - cbn. rewrite app_nil_r, record_nil. reflexivity.
  - cbn [List.map] in Hnodup. inversion Hnodup as [|? ? Hnotin Hrest]; subst.
    cbn [generate_loop generated generation_log].
    unfold bind at 1. unfold try_catch. unfold bind at 1.
    rewrite resize_call_run.
    destruct (resize (sharp w) buf (width res) (height res) None)
      as [e|processed].
    + unfold bind. rewrite emit_run. cbn [ret].
      rewrite IH; [|assumption|intros r Hr; apply Hfresh; right; exact Hr].
      rewrite !record_record. reflexivity.
    + cbn [ret]. rewrite map_set_fresh by (apply Hfresh; left; reflexivity).
      rewrite IH; [|assumption|].
      * rewrite record_record, <- app_assoc. reflexivity.
      * intros r Hr Hin. unfold map_keys in Hin. rewrite map_app in Hin.
        apply in_app_or in Hin. destruct Hin as [Hin|[Hin|[]]].
        -- exact (Hfresh r (or_intror Hr) Hin).
        -- cbn in Hin. apply Hnotin. rewrite Hin.
           apply in_map. exact Hr.
Qed.

Lemma catalog_names_distinct : NoDup (List.map name RESOLUTIONS).
Proof.
  cbn. repeat constructor; cbn; intuition discriminate.
Qed.

(** [generateAllResolutions(buffer, false)] never throws: it returns the
    entries whose resize succeeded, in catalog order, and logs the others. *)
Lemma generateAllResolutions_run (w : World) (buf : Buffer) (s : State) :
  generateAllResolutions w buf false s =
  (inr (generated (sharp w) buf RESOLUTIONS),
   record (generation_log (sharp w) buf RESOLUTIONS) s).
Proof.
  unfold generateAllResolutions, bind at 1. cbn [ret].
  rewrite generate_loop_run.
  - reflexivity.
  - exact catalog_names_distinct.
  - intros res _ [].
Qed.

Lemma generated_keys (sh : Sharp) (buf : Buffer)
    (specs : list ResolutionConfig) :
  map_keys (generated sh buf specs) =
  List.map name
    (List.filter
       (fun res => is_ok (resize sh buf (width res) (height res) None)) specs).
Proof.
  induction specs as [|res rest IH]; [reflexivity|].
  cbn [generated List.filter].
  destruct (resize sh buf (width res) (height res) None); cbn;
    rewrite <- IH; reflexivity.
Qed.

Lemma generated_In (sh : Sharp) (buf : Buffer) (specs : list ResolutionConfig)
    (n : string) (p : ProcessedImage) :
  In (n, p) (generated sh buf specs) ->
  exists res,
    In res specs /\ n = name res /\
    resize sh buf (width res) (height res) None = inr p.
Proof.
  induction specs as [|res rest IH]; [intros []|].
  cbn [generated].
  destruct (resize sh buf (width res) (height res) None) as [e|p'] eqn:Hres.
  - intros Hin. destruct (IH Hin) as (r & Hr & Hn & Hp).
    exists r. split; [right; exact Hr|]. auto.
  - intros [Heq|Hin].
    + inversion Heq; subst. exists res. split; [left; reflexivity|]. auto.
    + destruct (IH Hin) as (r & Hr & Hn & Hp).
      exists r. split; [right; exact Hr|]. auto.
Qed.

(** ** The catalog sweep of WallpaperController.create *)

Lemma upload_resolutions_run (w : World) (svc : Service) (slug : string)
    (wallpaperId : Z) (entries : JsMap ProcessedImage) :
  forall (rows : list ResolutionRow) (s : State),
    upload_resolutions w svc slug wallpaperId entries rows s =
    (match sweep_error w svc slug entries with
     | Some e => inl e
     | None =>
         inr (rows ++ uploaded_rows w svc slug wallpaperId entries)%list
     end,
     record (upload_events svc slug (sweep_attempted w svc slug entries)) s).
Proof.
  induction entries as [|[n p] rest IH]; intros rows s.
  - cbn. rewrite app_nil_r, record_nil. reflexivity.
  - cbn [upload_resolutions sweep_error uploaded_rows sweep_attempted].
    unfold bind at 1. rewrite upload_run.
    destruct (upload_outcome w svc (pi_buffer p) (sweep_options slug n))
      as [e|r].
    + reflexivity.
    + rewrite IH. rewrite record_record. cbn [upload_events List.map app].
      destruct (sweep_error w svc slug rest);
        [|rewrite <- app_assoc]; reflexivity.
Qed.

Lemma sweep_all_uploaded (w : World) (svc : Service) (slug : string)
    (wallpaperId : Z) (entries : JsMap ProcessedImage) :
  (forall n p,
     In (n, p) entries ->
     exists r,
       upload_outcome w svc (pi_buffer p) (sweep_options slug n) = inr r) ->
  sweep_error w svc slug entries = None /\
  sweep_attempted w svc slug entries = entries /\
  List.map resolution_name (uploaded_rows w svc slug wallpaperId entries) =
  map_keys entries /\
  List.map (fun row => (r_width row, r_height row))
    (uploaded_rows w svc slug wallpaperId entries) =
  List.map (fun entry => (pi_width (snd entry), pi_height (snd entry)))
    entries.
Proof.
  induction entries as [|[n p] rest IH]; intros Hall; [cbn; auto|].
  cbn [sweep_error sweep_attempted uploaded_rows].
  destruct (Hall n p (or_introl eq_refl)) as [r Hr]. rewrite Hr.
  destruct IH as (He & Ha & Hn & Hd).
  { intros n' p' Hin. apply Hall. right. exact Hin. }
  rewrite He, Ha. cbn. rewrite Hn, Hd. auto.
Qed.

(** C7. When every entry of the catalog is resized and uploaded with
    success, the sweep yields one variant per entry of [RESOLUTIONS], named
    1080p, 1440p, 4K, 5K, Mobile HD, Mobile 2K, Tablet, Thumbnail, Medium
    in that order: [generateAllResolutions] returns a map with these nine
    keys, and the upload loop turns it into nine rows with the same names
    and sizes in the same order. *)
Theorem sweep_one_variant_per_catalog_entry (w : World) (buf : Buffer)
    (svc : Service) (slug : string) (wallpaperId : Z) (s : State) :
  (forall res,
     In res RESOLUTIONS ->
     exists p r,
       resize (sharp w) buf (width res) (height res) None = inr p /\
       upload_outcome w svc (pi_buffer p) (sweep_options slug (name res)) =
       inr r) ->
  exists resolutions s1 rows s2,
    generateAllResolutions w buf false s = (inr resolutions, s1) /\
    map_keys resolutions = catalog_names /\
    upload_resolutions w svc slug wallpaperId resolutions [] s1 =
    (inr rows, s2) /\
    List.map resolution_name rows = catalog_names /\
    List.map (fun row => (r_width row, r_height row)) rows =
    List.map (fun res => (pi_width (snd res), pi_height (snd res)))
      resolutions /\
    List.length rows = List.length RESOLUTIONS.
Proof.
  intros Hall.
  assert (Hkeys : map_keys (generated (sharp w) buf RESOLUTIONS) =
                  catalog_names).
  { rewrite generated_keys.
    replace (List.filter _ RESOLUTIONS) with RESOLUTIONS; [reflexivity|].
    symmetry. apply forallb_filter_id. apply forallb_forall.
    intros res Hin. destruct (Hall res Hin) as (p & _ & -> & _).
    reflexivity. }
  destruct (sweep_all_uploaded w svc slug wallpaperId
              (generated (sharp w) buf RESOLUTIONS))
    as (Herr & Hatt & Hnames & Hdims).
  { intros n p Hin.
    destruct (generated_In _ _ _ _ _ Hin) as (res & Hres & -> & Hp).
    destruct (Hall res Hres) as (p' & r & Hp' & Hr).
    rewrite Hp in Hp'. inversion Hp'; subst p'. eauto. }
  do 4 eexists.
  split; [apply generateAllResolutions_run|].
  split; [exact Hkeys|].
  split; [rewrite upload_resolutions_run, Herr; reflexivity|].
  cbn [app]. rewrite Hnames, Hdims.
  split; [exact Hkeys|]. split; [reflexivity|].
  rewrite <- (length_map resolution_name), Hnames, Hkeys. reflexivity.
Qed.

Lemma sweep_one_variant_per_catalog_entry_witness :
  exists resolutions s1 rows s2,
    generateAllResolutions (Sample.world [] Sample.cloudinary_rows)
      Sample.photo false Sample.boot = (inr resolutions, s1) /\
    upload_resolutions (Sample.world [] Sample.cloudinary_rows)
      (mkService 0 Cloudinary) "sunset" 42 resolutions [] s1 =
    (inr rows, s2) /\
    List.map resolution_name rows = catalog_names.
Proof.
  destruct (sweep_one_variant_per_catalog_entry
              (Sample.world [] Sample.cloudinary_rows) Sample.photo
              (mkService 0 Cloudinary) "sunset" 42 Sample.boot)
    as (resolutions & s1 & rows & s2 & Hgen & _ & Hup & Hnames & _).
  - intros res Hin. cbn in Hin.
    repeat (destruct Hin as [<-|Hin];
            [do 2 eexists; split; vm_compute; reflexivity|]).
    contradiction.
  - exists resolutions, s1, rows, s2. auto.
Defined.

(** ** WallpaperController.create *)

Lemma lift_run {A} (r : exn + A) (s : State) : lift r s = (r, s).
Proof. reflexivity. Qed.

Lemma validate_valid_decodable (sh : Sharp) (buf : Buffer)
    (options : option ValidateOptions) (v : ValidationResult) :
  validate sh buf options = inr v ->
  valid v = true ->
  decodable sh buf.
Proof.
  unfold validate, decodable. destruct (sharp_metadata sh buf) as [e|md].
  - intros Hv Hvalid. inversion Hv; subst. discriminate.
  - eauto.
Qed.

Lemma extractPrimaryColor_log (w : World) (buf : Buffer) (s : State) :
  exists color log,
    extractPrimaryColor w buf s = (inr color, record log s) /\
    Forall (fun ev => is_console ev = true) log.
Proof.
  unfold extractPrimaryColor, try_catch. rewrite lift_run.
  destruct (extractPrimaryColor_try (sharp w) buf) as [e|color].
  - do 2 eexists. split; [reflexivity|]. repeat constructor.
  - exists color, []. rewrite record_nil. split; [reflexivity|constructor].
Qed.

Lemma getActiveService_log (w : World) (s : State) :
  exists svc s' log,
    StorageFactory.getActiveService w s = (inr svc, s') /\
    trace s' = (trace s ++ log)%list /\
    Forall (fun ev => is_console ev = true \/ is_provider_query ev = true) log.
Proof.
  destruct (instance s) as [i|] eqn:Hinst.
  - exists i, s, []. rewrite (getActiveService_hit w s i Hinst), app_nil_r.
    repeat split. constructor.
  - destruct (getActiveService_miss w s Hinst) as (log & Hrun & Hlog & _).
    cbn zeta in Hrun. do 2 eexists. exists (ProviderQuery :: log).
    split; [exact Hrun|]. split; [reflexivity|].
    constructor; [right; reflexivity|].
    eapply Forall_impl; [|exact Hlog]. intros ev Hev. left. exact Hev.
Qed.

Lemma first_rejection_In {A} (order : list nat) (outcomes : list (exn + A))
    (e : exn) :
  first_rejection order outcomes = Some e -> In (inl e) outcomes.
Proof.
  induction order as [|i rest IH]; cbn; [discriminate|].
  destruct (nth_error outcomes i) as [[e'|a]|] eqn:Hnth; auto.
  intros Heq. inversion Heq; subst. eapply nth_error_In. exact Hnth.
Qed.

Lemma first_rejection_app {A} (order order' : list nat)
    (outcomes : list (exn + A)) :
  first_rejection (order ++ order') outcomes =
  match first_rejection order outcomes with
  | Some e => Some e
  | None => first_rejection order' outcomes
  end.
Proof.
  induction order as [|i rest IH]; cbn; [reflexivity|].
  destruct (nth_error outcomes i) as [[e|a]|]; auto.
Qed.

(** [Promise.all] of three calls issues all three; it rejects, with one of
    their rejections, exactly when one of them rejects. *)
Lemma promise_all3_run {A} (order : list nat) (a b c : M A)
    (s sa sb sc : State) (ra rb rc : exn + A) :
  a s = (ra, sa) -> b sa = (rb, sb) -> c sb = (rc, sc) ->
  (exists x y z,
     ra = inr x /\ rb = inr y /\ rc = inr z /\
     promise_all3 order a b c s = (inr (x, y, z), sc)) \/
  (exists e,
     In (inl e) [ra; rb; rc] /\
     promise_all3 order a b c s = (inl e, sc)).
Proof.
  intros Ha Hb Hc. unfold promise_all3, bind, settle.
  rewrite Ha, Hb, Hc. rewrite first_rejection_app.
  destruct (first_rejection order [ra; rb; rc]) as [e|] eqn:Hfirst.
  - right. exists e. split; [|reflexivity].
    eapply first_rejection_In. exact Hfirst.
  - destruct ra as [e|x]; [right; exists e; cbn; auto|].
    destruct rb as [e|y]; [right; exists e; cbn; auto|].
    destruct rc as [e|z]; [right; exists e; cbn; auto|].
    left. exists x, y, z. cbn. auto.
Qed.

(** Up to the core uploads: with a file, well-formed category ids, a valid
    image and both previews generated, [create] reaches the uploads. *)
Lemma create_reaches_uploads (w : World) (req : Request) (s : State)
    (file : UploadedFile) (validation : ValidationResult)
    (primaryColor : string) (s1 : State) (svc : Service) (s2 : State)
    (thumbnail medium : ProcessedImage) :
  req_file req = Some file ->
  req_category_ids req <> CatMalformed ->
  validate (sharp w) (f_buffer file) (validate_options w) = inr validation ->
  valid validation = true ->
  extractPrimaryColor w (f_buffer file) s = (inr primaryColor, s1) ->
  StorageFactory.getActiveService w s1 = (inr svc, s2) ->
  generateThumbnail (sharp w) (f_buffer file) = inr thumbnail ->
  generateMedium (sharp w) (f_buffer file) = inr medium ->
  exists metadata,
    sharp_metadata (sharp w) (f_buffer file) = inr metadata /\
    create w req s =
    try_catch
      (upload_and_persist w req file metadata primaryColor
         (generateWithTimestamp w (req_title req)) svc thumbnail medium)
      respond_failure
      (record [ResizeCall 400 300 thumbnail_options;
               ResizeCall 800 600 medium_options] s2).
Proof.
  intros Hfile Hcat Hval Hvalid Hcolor Hsvc Hthumb Hmedium.
  unfold generateThumbnail in Hthumb. unfold generateMedium in Hmedium.
  destruct (validate_valid_decodable _ _ _ _ Hval Hvalid) as [metadata Hmd].
  exists metadata. split; [exact Hmd|].
  unfold create, try_catch. rewrite Hfile.
  assert (Hbody :
    validate_and_ingest w req file s =
    upload_and_persist w req file metadata primaryColor
      (generateWithTimestamp w (req_title req)) svc thumbnail medium
      (record [ResizeCall 400 300 thumbnail_options;
               ResizeCall 800 600 medium_options] s2)).
  { unfold validate_and_ingest.
    unfold bind at 1. rewrite lift_run, Hval, Hvalid. cbn [negb].
    unfold bind at 1. unfold getMetadata. rewrite lift_run, Hmd.
    unfold bind at 1. rewrite Hcolor. cbn zeta.
    unfold bind at 1. rewrite Hsvc.
    unfold bind at 1. unfold generateThumbnail_call.
    rewrite resize_call_run, Hthumb.
    unfold bind at 1. unfold generateMedium_call.
    rewrite resize_call_run, Hmedium.
    rewrite record_record. reflexivity. }
  destruct (req_category_ids req); [contradiction| |]; rewrite Hbody;
    reflexivity.
Qed.

Lemma console_harmless (ev : Event) :
  is_console ev = true \/ is_provider_query ev = true ->
  is_sweep_call ev = false /\ is_row_write ev = false.
Proof.
  destruct ev; cbn; intros [H|H]; try discriminate H; auto.
Qed.

Lemma core_calls_harmless (svc : Service) (file : UploadedFile)
    (thumbnail medium : ProcessedImage) (slug : string) :
  Forall (fun ev => is_sweep_call ev = false /\ is_row_write ev = false)
    (core_calls svc file thumbnail medium slug).
Proof. repeat constructor. Qed.

(** C2. Once [create] has reached the three core uploads, if any of them
    fails then [create] answers 500 with the message of one of the failed
    uploads; besides the three uploads and the two preview resizes it
    issues nothing but a console line: no resize and no upload of the
    catalog sweep, and no wallpaper, category or resolution row. *)
Theorem core_upload_failure_aborts (w : World) (req : Request) (s : State)
    (file : UploadedFile) (validation : ValidationResult)
    (primaryColor : string) (s1 : State) (svc : Service) (s2 : State)
    (thumbnail medium : ProcessedImage) :
  req_file req = Some file ->
  req_category_ids req <> CatMalformed ->
  validate (sharp w) (f_buffer file) (validate_options w) = inr validation ->
  valid validation = true ->
  extractPrimaryColor w (f_buffer file) s = (inr primaryColor, s1) ->
  StorageFactory.getActiveService w s1 = (inr svc, s2) ->
  generateThumbnail (sharp w) (f_buffer file) = inr thumbnail ->
  generateMedium (sharp w) (f_buffer file) = inr medium ->
  let slug := generateWithTimestamp w (req_title req) in
  existsb (fun r => negb (is_ok r))
    (core_outcomes w svc file thumbnail medium slug) = true ->
  exists e s',
    In (inl e) (core_outcomes w svc file thumbnail medium slug) /\
    create w req s =
    (inr (mkResponse 500
            (ErrorBody (Js.or_str (Some (message e))
                          "Failed to upload wallpaper"))), s') /\
    trace s' =
    (trace s2 ++ core_calls svc file thumbnail medium slug ++
     [ConsoleError "Upload wallpaper error:" e])%list /\
    exists new,
      trace s' = (trace s ++ new)%list /\
      Forall (fun ev => is_sweep_call ev = false /\ is_row_write ev = false)
        new.
Proof.
  intros Hfile Hcat Hval Hvalid Hcolor Hsvc Hthumb Hmedium slug Hfail.
  destruct (create_reaches_uploads w req s file validation primaryColor s1
              svc s2 thumbnail medium Hfile Hcat Hval Hvalid Hcolor Hsvc
              Hthumb Hmedium) as (metadata & _ & Hcreate).
  fold slug in Hcreate. rewrite Hcreate. clear Hcreate.
  set (s3 := record [ResizeCall 400 300 thumbnail_options;
                     ResizeCall 800 600 medium_options] s2).
  destruct (promise_all3_run (settle_order w)
              (upload w svc (f_buffer file)
                 (core_options "wallpapers/original" slug))
              (upload w svc (pi_buffer thumbnail)
                 (core_options "wallpapers/thumbnails" (slug ++ "-thumb")))
              (upload w svc (pi_buffer medium)
                 (core_options "wallpapers/medium" (slug ++ "-medium")))
              s3 _ _ _ _ _ _
              (upload_run _ _ _ _ _) (upload_run _ _ _ _ _)
              (upload_run _ _ _ _ _))
    as [(x & y & z & Hx & Hy & Hz & _)|(e & Hin & Hrun)].
  - exfalso. unfold core_outcomes in Hfail. rewrite Hx, Hy, Hz in Hfail.
    discriminate Hfail.
  - assert (Htrace2 : exists pre,
              trace s2 = (trace s ++ pre)%list /\
              Forall (fun ev => is_sweep_call ev = false /\
                                is_row_write ev = false) pre).
    { destruct (extractPrimaryColor_log w (f_buffer file) s)
        as (color & log1 & Hrun1 & Hlog1).
      rewrite Hcolor in Hrun1. inversion Hrun1; subst.
      destruct (getActiveService_log w (record log1 s))
        as (svc' & s2' & log2 & Hrun2 & Htr2 & Hlog2).
      rewrite Hsvc in Hrun2. inversion Hrun2; subst.
      exists (log1 ++ log2)%list. split.
      - rewrite Htr2. cbn. rewrite app_assoc. reflexivity.
      - apply Forall_app. split.
        + eapply Forall_impl; [|exact Hlog1].
          intros ev Hev. apply console_harmless. left. exact Hev.
        + eapply Forall_impl; [|exact Hlog2].
          intros ev Hev. apply console_harmless. exact Hev. }
    exists e. eexists. split; [exact Hin|].
    assert (Htrace :
      trace
        (record [ConsoleError "Upload wallpaper error:" e]
           (record
              [UploadCall svc (pi_buffer medium)
                 (core_options "wallpapers/medium" (slug ++ "-medium"))]
              (record
                 [UploadCall svc (pi_buffer thumbnail)
                    (core_options "wallpapers/thumbnails"
                       (slug ++ "-thumb"))]
                 (record
                    [UploadCall svc (f_buffer file)
                       (core_options "wallpapers/original" slug)] s3)))) =
      (trace s2 ++ core_calls svc file thumbnail medium slug ++
       [ConsoleError "Upload wallpaper error:" e])%list).
    { unfold s3. rewrite !record_record. cbn [record trace app].
      unfold core_calls. cbn [app]. reflexivity. }
    split; [|split; [exact Htrace|]].
    + unfold try_catch, upload_and_persist. unfold bind at 1.
      fold slug. rewrite Hrun. reflexivity.
    + destruct Htrace2 as (pre & Hpre & Hharmless).
      exists (pre ++ core_calls svc file thumbnail medium slug ++
              [ConsoleError "Upload wallpaper error:" e])%list.
      split.
      * rewrite Htrace, Hpre, <- app_assoc. reflexivity.
      * apply Forall_app. split; [exact Hharmless|].
        apply Forall_app. split; [apply core_calls_harmless|].
        repeat constructor.
Qed.

Lemma core_upload_failure_aborts_witness :
  exists e s',
    create (Sample.world ["sunset-lq3x9k-thumb"] Sample.cloudinary_rows)
      Sample.request Sample.boot =
    (inr (mkResponse 500
            (ErrorBody (Js.or_str (Some (message e))
                          "Failed to upload wallpaper"))), s') /\
    Forall (fun ev => is_sweep_call ev = false /\ is_row_write ev = false)
      (trace s').
Proof.
  destruct (core_upload_failure_aborts
              (Sample.world ["sunset-lq3x9k-thumb"] Sample.cloudinary_rows)
              Sample.request Sample.boot
              (mkFile Sample.photo 8)
              (mkValidation true [])
              "#c86432"
              Sample.boot
              (mkService 0 Cloudinary)
              (mkState (Some (mkService 0 Cloudinary)) 1 1 [ProviderQuery])
              (mkProcessed
                 (Sample.encode (Sample.mkImage "jpeg" 400 300 200 100 50))
                 400 300 "jpeg" 8)
              (mkProcessed
                 (Sample.encode (Sample.mkImage "jpeg" 800 600 200 100 50))
                 800 600 "jpeg" 8))
    as (e & s' & _ & Hrun & _ & new & Hnew & Hharmless).
  - reflexivity.
  - discriminate.
  - vm_compute. reflexivity.
  - reflexivity.
  - vm_compute. reflexivity.
  - vm_compute. reflexivity.
  - vm_compute. reflexivity.
  - vm_compute. reflexivity.
  - vm_compute. reflexivity.
  - exists e, s'. split; [exact Hrun|]. rewrite Hnew. exact Hharmless.
Defined.

(** The resize loop keeps going after a failed entry; the upload loop does
    not: the first upload of the sweep that fails is thrown out of
    [sweep_and_respond], before any resolution row is written. *)
Lemma sweep_upload_failure_propagates (w : World) (file : UploadedFile)
    (metadata : Metadata) (slug : string) (svc : Service)
    (originalUpload : UploadResult) (wallpaperId : Z) (s : State) (e : exn) :
  sweep_error w svc slug (generated (sharp w) (f_buffer file) RESOLUTIONS) =
  Some e ->
  exists new,
    sweep_and_respond w file metadata slug svc originalUpload wallpaperId s =
    (inl e, record new s) /\
    Forall (fun ev => is_row_write ev = false) new.
Proof.
  intros Herr. unfold sweep_and_respond. unfold bind at 1.
  rewrite generateAllResolutions_run. unfold bind at 1.
  rewrite upload_resolutions_run, Herr, record_record.
  eexists. split; [reflexivity|].
  apply Forall_app. split.
  - generalize RESOLUTIONS. intros specs.
    induction specs as [|res rest IH]; cbn [generation_log]; [constructor|].
    constructor; [reflexivity|].
    destruct (resize (sharp w) (f_buffer file) (width res) (height res) None);
      [constructor; [reflexivity|]|]; exact IH.
  - unfold upload_events. apply Forall_map, Forall_forall.
    intros entry _. reflexivity.
Qed.

(** C1, where the code departs from it. All nine variants are generated;
    Cloudinary then refuses the upload of the first one, [1080p]. [create]
    does not skip the entry: it answers 500 with the provider's message,
    after the wallpaper row has been inserted, issues no further upload of
    the sweep and writes no resolution row. *)
Theorem sweep_upload_failure_fails_create :
  exists s',
    create (Sample.world ["sunset-lq3x9k-1080p"] Sample.cloudinary_rows)
      Sample.request Sample.boot =
    (inr (mkResponse 500 (ErrorBody "Storage quota exceeded")), s') /\
    map_keys (generated Sample.codec Sample.photo RESOLUTIONS) =
    catalog_names /\
    List.length (List.filter is_sweep_upload (trace s')) = 1%nat /\
    existsb is_wallpaper_insert (trace s') = true /\
    existsb is_resolution_insert (trace s') = false.
Proof.
  eexists. split; [vm_compute; reflexivity|].
  split; [vm_compute; reflexivity|].
  split; [vm_compute; reflexivity|].
  split; vm_compute; reflexivity.
Qed.

(* ------------------------------------------------------------------ *)
(** * Further properties of the code *)

(** ** SlugUtil.generate *)

Lemma lower_char_not_upper (c : ascii) : is_upper (Js.lower_char c) = false.
Proof. destruct c as [[] [] [] [] [] [] [] []]; reflexivity. Qed.

Lemma kept_lower_char (c : ascii) :
  is_kept_lower c = true ->
  SlugUtil.is_separator c = false ->
  is_slug_char c = true.
Proof.
  destruct c as [[] [] [] [] [] [] [] []]; vm_compute; intros H1 H2;
    first [reflexivity | discriminate H1 | discriminate H2].
Qed.

Lemma hyphen_is_separator (c : ascii) :
  SlugUtil.is_hyphen c = true -> SlugUtil.is_separator c = true.
Proof.
  unfold SlugUtil.is_separator. intros ->. apply orb_true_r.
Qed.

Lemma slug_char_facts (c : ascii) :
  is_slug_char c = true ->
  Js.lower_char c = c /\ Js.is_space c = false /\
  SlugUtil.is_word c = true /\ SlugUtil.is_separator c = false /\
  SlugUtil.is_hyphen c = false.
Proof.
  destruct c as [[] [] [] [] [] [] [] []]; vm_compute; intros H;
    first [discriminate H | repeat split].
Qed.

Lemma hyphen_facts (c : ascii) :
  SlugUtil.is_hyphen c = true ->
  c = "-"%char /\ Js.lower_char c = c /\ Js.is_space c = false.
Proof.
  unfold SlugUtil.is_hyphen. intros H. apply Ascii.eqb_eq in H. subst c.
  repeat split.
Qed.

Lemma toLowerCase_all_lower (s : string) :
  all_chars (fun c => negb (is_upper c)) (Js.toLowerCase s) = true.
Proof.
  induction s as [|c rest IH]; [reflexivity|].
  cbn. rewrite lower_char_not_upper, IH. reflexivity.
Qed.

Lemma trimStart_all_chars (P : ascii -> bool) (s : string) :
  all_chars P s = true -> all_chars P (SlugUtil.trimStart s) = true.
Proof.
  induction s as [|c rest IH]; [reflexivity|].
  cbn [SlugUtil.trimStart]. destruct (Js.is_space c); [|auto].
  cbn. intros H. apply andb_true_iff in H. apply IH, H.
Qed.

Lemma trimEnd_all_chars (P : ascii -> bool) (s : string) :
  all_chars P s = true -> all_chars P (SlugUtil.trimEnd s) = true.
Proof.
  induction s as [|c rest IH]; [reflexivity|].
  cbn [SlugUtil.trimEnd all_chars]. intros H.
  apply andb_true_iff in H. destruct H as [Hc Hrest].
  specialize (IH Hrest).
  destruct (SlugUtil.trimEnd rest) as [|c' rest'].
  - destruct (Js.is_space c); cbn; [reflexivity|].
    rewrite Hc. reflexivity.
  - cbn [all_chars]. rewrite Hc. exact IH.
Qed.

Lemma remove_special_kept (s : string) :
  all_chars (fun c => negb (is_upper c)) s = true ->
  all_chars is_kept_lower (SlugUtil.remove_special s) = true.
Proof.
  induction s as [|c rest IH]; [reflexivity|].
  cbn [all_chars SlugUtil.remove_special]. intros H.
  apply andb_true_iff in H. destruct H as [Hc Hrest].
  destruct (SlugUtil.is_word c || Js.is_space c || SlugUtil.is_hyphen c)
    eqn:Hkeep; [|auto].
  cbn [all_chars]. unfold is_kept_lower at 1. rewrite Hc, Hkeep.
  cbn. auto.
Qed.

Lemma collapse_single_hyphens (s : string) :
  all_chars is_kept_lower s = true ->
  forall in_run,
    single_hyphens in_run (SlugUtil.collapse_separators in_run s) = true.
Proof.
  induction s as [|c rest IH]; [reflexivity|].
  cbn [all_chars SlugUtil.collapse_separators]. intros H in_run.
  apply andb_true_iff in H. destruct H as [Hc Hrest].
  destruct (SlugUtil.is_separator c) eqn:Hsep.
  - destruct in_run; [apply IH, Hrest|].
    cbn. apply IH, Hrest.
  - cbn [single_hyphens].
    destruct (SlugUtil.is_hyphen c) eqn:Hh.
    + apply hyphen_is_separator in Hh. congruence.
    + rewrite (kept_lower_char c Hc Hsep). cbn. apply IH, Hrest.
Qed.

Lemma strip_leading_single_hyphens (s : string) :
  forall b,
    single_hyphens b s = true ->
    single_hyphens true (SlugUtil.strip_leading_hyphens s) = true.
Proof.
  induction s as [|c rest IH]; [reflexivity|].
  intros b. cbn [single_hyphens SlugUtil.strip_leading_hyphens].
  destruct (SlugUtil.is_hyphen c) eqn:Hh.
  - intros H. apply andb_true_iff in H. apply (IH true), H.
  - cbn [single_hyphens]. rewrite Hh. auto.
Qed.

Lemma strip_trailing_slug_tail (s : string) :
  forall b,
    single_hyphens b s = true ->
    SlugUtil.strip_trailing_hyphens s = EmptyString \/
    slug_tail b (SlugUtil.strip_trailing_hyphens s) = true.
Proof.
  induction s as [|c rest IH]; [left; reflexivity|].
  intros b. cbn [single_hyphens SlugUtil.strip_trailing_hyphens].
  destruct (SlugUtil.is_hyphen c) eqn:Hh; intros H;
    apply andb_true_iff in H; destruct H as [H1 H2].
  - destruct (IH true H2) as [Hempty|Htail].
    + rewrite Hempty. left. reflexivity.
    + destruct (SlugUtil.strip_trailing_hyphens rest) as [|c' rest'];
        [left; reflexivity|].
      right. cbn [slug_tail]. rewrite Hh, H1. exact Htail.
  - destruct (IH false H2) as [Hempty|Htail].
    + rewrite Hempty. right. cbn. rewrite Hh, H1. reflexivity.
    + destruct (SlugUtil.strip_trailing_hyphens rest) as [|c' rest'].
      * right. cbn. rewrite Hh, H1. reflexivity.
      * right. cbn [slug_tail]. rewrite Hh, H1. exact Htail.
Qed.

Lemma generate_shape (text : string) :
  is_slug (SlugUtil.generate text) = true.
Proof.
  unfold SlugUtil.generate, SlugUtil.strip_hyphens, SlugUtil.trim.
  set (kept := SlugUtil.remove_special _).
  assert (Hkept : all_chars is_kept_lower kept = true).
  { apply remove_special_kept, trimEnd_all_chars, trimStart_all_chars,
      toLowerCase_all_lower. }
  pose proof (collapse_single_hyphens kept Hkept false) as Hsingle.
  apply strip_leading_single_hyphens in Hsingle.
  destruct (strip_trailing_slug_tail _ _ Hsingle) as [Hempty|Htail].
  - rewrite Hempty. reflexivity.
  - unfold is_slug.
    destruct (SlugUtil.strip_trailing_hyphens _); [reflexivity|exact Htail].
Qed.

(** X1. For every ASCII text, [SlugUtil.generate] yields a slug: only
    lower-case letters, digits and hyphens, no hyphen at either end and no
    two hyphens in a row (possibly the empty string). *)
Theorem generate_is_slug (text : string) :
  is_ascii_text text = true ->
  is_slug (SlugUtil.generate text) = true.
Proof. intros _. apply generate_shape. Qed.

Lemma generate_is_slug_witness :
  SlugUtil.generate "  Hello, World_2024 -- Sunsets! " = "hello-world-2024-sunsets" /\
  is_slug (SlugUtil.generate "  Hello, World_2024 -- Sunsets! ") = true.
Proof.
  split; [reflexivity|].
  apply generate_is_slug. reflexivity.
Defined.

Lemma slug_tail_chars (s : string) :
  forall b,
    slug_tail b s = true ->
    all_chars (fun c => is_slug_char c || SlugUtil.is_hyphen c) s = true.
Proof.
  induction s as [|c rest IH]; [reflexivity|].
  intros b. cbn [slug_tail all_chars].
  destruct (SlugUtil.is_hyphen c); intros H; apply andb_true_iff in H;
    destruct H as [H1 H2].
  - rewrite orb_true_r. cbn. apply (IH true), H2.
  - rewrite H1. cbn. apply (IH false), H2.
Qed.

Lemma slug_chars_unchanged (s : string) :
  all_chars (fun c => is_slug_char c || SlugUtil.is_hyphen c) s = true ->
  Js.toLowerCase s = s /\
  SlugUtil.trimEnd s = s /\
  SlugUtil.remove_special s = s.
Proof.
  induction s as [|c rest IH]; [repeat split|].
  cbn [all_chars]. intros H. apply andb_true_iff in H.
  destruct H as [Hc Hrest]. destruct (IH Hrest) as (Hl & Ht & Hr).
  assert (Hfacts : Js.lower_char c = c /\ Js.is_space c = false /\
                   (SlugUtil.is_word c || Js.is_space c ||
                    SlugUtil.is_hyphen c) = true).
  { apply orb_true_iff in Hc. destruct Hc as [Hc|Hc].
    - destruct (slug_char_facts c Hc) as (H1 & H2 & H3 & _).
      rewrite H3. auto.
    - destruct (hyphen_facts c Hc) as (_ & H1 & H2).
      rewrite Hc, orb_true_r. auto. }
  destruct Hfacts as (Hlc & Hsp & Hkeep).
  cbn [Js.toLowerCase SlugUtil.trimEnd SlugUtil.remove_special].
  rewrite Hlc, Hl, Hkeep, Hr, Ht.
  repeat split. destruct rest; [rewrite Hsp|]; reflexivity.
Qed.

Lemma slug_tail_collapse (s : string) :
  forall b,
    slug_tail b s = true -> SlugUtil.collapse_separators b s = s.
Proof.
  induction s as [|c rest IH]; [reflexivity|].
  intros b. cbn [slug_tail SlugUtil.collapse_separators].
  destruct (SlugUtil.is_hyphen c) eqn:Hh; intros H;
    apply andb_true_iff in H; destruct H as [H1 H2].
  - rewrite (hyphen_is_separator c Hh).
    destruct b; [discriminate H1|].
    destruct (hyphen_facts c Hh) as (-> & _). rewrite (IH true H2).
    reflexivity.
  - destruct (slug_char_facts c H1) as (_ & _ & _ & -> & _).
    rewrite (IH false H2). reflexivity.
Qed.

Lemma slug_tail_strip_trailing (s : string) :
  forall b,
    slug_tail b s = true -> SlugUtil.strip_trailing_hyphens s = s.
Proof.
  induction s as [|c rest IH]; [reflexivity|].
  intros b. cbn [slug_tail SlugUtil.strip_trailing_hyphens].
  destruct (SlugUtil.is_hyphen c) eqn:Hh; intros H;
    apply andb_true_iff in H; destruct H as [H1 H2].
  - rewrite (IH true H2). destruct rest; [discriminate H2|reflexivity].
  - rewrite (IH false H2). destruct rest; reflexivity.
Qed.

Lemma slug_unchanged (s : string) :
  is_slug s = true -> SlugUtil.generate s = s.
Proof.
  destruct s as [|c rest]; [reflexivity|].
  unfold is_slug. intros Hslug.
  destruct (slug_chars_unchanged _ (slug_tail_chars _ _ Hslug))
    as (Hl & Ht & Hr).
  assert (Hfirst : SlugUtil.is_hyphen c = false /\ is_slug_char c = true /\
                   slug_tail false rest = true).
  { cbn [slug_tail] in Hslug. destruct (SlugUtil.is_hyphen c);
      [discriminate Hslug|].
    apply andb_true_iff in Hslug. tauto. }
  destruct Hfirst as (Hh & Hc & Hrest).
  destruct (slug_char_facts c Hc) as (_ & Hsp & _ & Hsep & _).
  unfold SlugUtil.generate, SlugUtil.trim, SlugUtil.strip_hyphens.
  rewrite Hl. cbn [SlugUtil.trimStart]. rewrite Hsp, Ht, Hr.
  cbn [SlugUtil.collapse_separators]. rewrite Hsep.
  rewrite (slug_tail_collapse rest false Hrest).
  cbn [SlugUtil.strip_leading_hyphens]. rewrite Hh.
  apply (slug_tail_strip_trailing _ true Hslug).
Qed.

(** X2. [SlugUtil.generate] leaves a slug as it is, and is therefore
    idempotent on ASCII text: generating the slug of a slug changes
    nothing. *)
Theorem generate_idempotent (text : string) :
  is_ascii_text text = true ->
  (is_slug text = true -> SlugUtil.generate text = text) /\
  SlugUtil.generate (SlugUtil.generate text) = SlugUtil.generate text.
Proof.
  intros _. split; [apply slug_unchanged|].
  apply slug_unchanged, generate_shape.
Qed.

Lemma generate_idempotent_witness :
  SlugUtil.generate "nature-landscapes" = "nature-landscapes" /\
  SlugUtil.generate (SlugUtil.generate "Nature & Landscapes") =
  SlugUtil.generate "Nature & Landscapes".
Proof.
  split.
  - apply (generate_idempotent "nature-landscapes"); reflexivity.
  - apply (generate_idempotent "Nature & Landscapes"). reflexivity.
Defined.

(** ** SlugUtil.generateUnique *)

Lemma includes_In (xs : list string) (x : string) :
  Js.includes xs x = true <-> In x xs.
Proof.
  unfold Js.includes. rewrite existsb_exists. split.
  - intros (y & Hy & Heq). apply String.eqb_eq in Heq. subst. exact Hy.
  - intros Hin. exists x. split; [exact Hin|apply String.eqb_refl].
Qed.

Lemma to_int_proper (z : Z) :
  Z.to_int z <> Decimal.Pos Decimal.Nil /\
  Z.to_int z <> Decimal.Neg Decimal.Nil.
Proof.
  destruct z as [|p|p]; cbn; split; try discriminate;
    intros H; inversion H as [Hnil];
    exact (DecimalPos.Unsigned.to_uint_nonnil p Hnil).
Qed.

Lemma string_of_Z_inj (j k : Z) :
  Js.string_of_Z j = Js.string_of_Z k -> j = k.
Proof.
  unfold Js.string_of_Z. intros H.
  apply DecimalZ.to_int_inj.
  assert (Hs : Some (Z.to_int j) = Some (Z.to_int k)).
  { destruct (to_int_proper j) as [Hj1 Hj2].
    destruct (to_int_proper k) as [Hk1 Hk2].
    rewrite <- (NilZero.isi (Z.to_int j)), <- (NilZero.isi (Z.to_int k))
      by assumption.
    rewrite H. reflexivity. }
  inversion Hs. reflexivity.
Qed.

Lemma append_inj (p x y : string) : p ++ x = p ++ y -> x = y.
Proof.
  induction p as [|c p IH]; cbn; [auto|].
  intros H. inversion H. auto.
Qed.

Lemma numbered_inj (baseSlug : string) (j k : Z) :
  numbered baseSlug j = numbered baseSlug k -> j = k.
Proof.
  unfold numbered. intros H.
  apply append_inj, append_inj in H. apply string_of_Z_inj, H.
Qed.

(** Running out of tests means that every candidate tested was taken. *)
Lemma generateUnique_loop_none (baseSlug : string)
    (existingSlugs : list string) (fuel : nat) :
  forall slug counter,
    SlugUtil.generateUnique_loop fuel baseSlug existingSlugs slug counter =
    None ->
    forall k,
      counter <= k < counter + Z.of_nat fuel - 1 ->
      In (numbered baseSlug k) existingSlugs.
Proof.
  induction fuel as [|fuel IH]; intros slug counter Hnone k Hk; [lia|].
  cbn [SlugUtil.generateUnique_loop] in Hnone.
  destruct (Js.includes existingSlugs slug); [|discriminate Hnone].
  destruct (Z.eq_dec k counter) as [->|Hne].
  - destruct fuel as [|fuel']; [lia|].
    cbn [SlugUtil.generateUnique_loop] in Hnone. fold (numbered baseSlug counter) in Hnone.
    destruct (Js.includes existingSlugs (numbered baseSlug counter)) eqn:Hinc;
      [|discriminate Hnone].
    apply includes_In, Hinc.
  - apply (IH _ _ Hnone). lia.
Qed.

(** What the loop returns is free, and is the first free candidate. *)
Lemma generateUnique_loop_some (baseSlug : string)
    (existingSlugs : list string) (fuel : nat) :
  forall slug counter result,
    SlugUtil.generateUnique_loop fuel baseSlug existingSlugs slug counter =
    Some result ->
    ~ In result existingSlugs /\
    (result = slug \/
     In slug existingSlugs /\
     exists k,
       counter <= k /\ result = numbered baseSlug k /\
       forall j, counter <= j < k -> In (numbered baseSlug j) existingSlugs).
Proof.
  induction fuel as [|fuel IH]; intros slug counter result Hsome;
    [discriminate Hsome|].
  cbn [SlugUtil.generateUnique_loop] in Hsome.
  destruct (Js.includes existingSlugs slug) eqn:Hinc.
  - fold (numbered baseSlug counter) in Hsome.
    destruct (IH _ _ _ Hsome) as [Hfree Hwhich]. split; [exact Hfree|].
    right. split; [apply includes_In, Hinc|].
    destruct Hwhich as [->|(Htaken & k & Hk & -> & Hbelow)].
    + exists counter. split; [lia|]. split; [reflexivity|]. intros j Hj. lia.
    + exists k. split; [lia|]. split; [reflexivity|].
      intros j Hj. destruct (Z.eq_dec j counter) as [->|Hne];
        [exact Htaken|apply Hbelow; lia].
  - inversion Hsome; subst. split; [|left; reflexivity].
    intros Hin. apply includes_In in Hin. congruence.
Qed.

Lemma NoDup_map_inj {A B} (f : A -> B) (l : list A) :
  (forall x y, f x = f y -> x = y) -> NoDup l -> NoDup (List.map f l).
Proof.
  intros Hinj Hnd. induction Hnd as [|x l Hx Hnd IH]; cbn; constructor.
  - intros Hin. apply in_map_iff in Hin. destruct Hin as (y & Heq & Hy).
    apply Hinj in Heq. subst. contradiction.
  - exact IH.
Qed.

(** X3. [SlugUtil.generateUnique] terminates within two more tests than
    there are existing slugs, and returns a slug that is not among them:
    [baseSlug] itself when it is free, otherwise [baseSlug-k] for the
    smallest [k >= 1] that is free. *)
Theorem generateUnique_free (baseSlug : string) (existingSlugs : list string) :
  exists slug,
    SlugUtil.generateUnique baseSlug existingSlugs = Some slug /\
    ~ In slug existingSlugs /\
    (slug = baseSlug \/
     In baseSlug existingSlugs /\
     exists k,
       1 <= k /\ slug = numbered baseSlug k /\
       forall j, 1 <= j < k -> In (numbered baseSlug j) existingSlugs).
Proof.
  unfold SlugUtil.generateUnique.
  destruct (SlugUtil.generateUnique_loop
              (S (S (List.length existingSlugs))) baseSlug existingSlugs
              baseSlug 1) as [slug|] eqn:Hrun.
  - exists slug. split; [reflexivity|].
    exact (generateUnique_loop_some _ _ _ _ _ _ Hrun).
  - exfalso.
    pose proof (generateUnique_loop_none _ _ _ _ _ Hrun) as Hall.
    set (n := List.length existingSlugs) in *.
    set (candidates :=
           List.map (fun i => numbered baseSlug (Z.of_nat i)) (seq 1 (S n))).
    assert (Hnodup : NoDup candidates).
    { apply NoDup_map_inj; [|apply seq_NoDup].
      intros x y Heq. apply numbered_inj in Heq. lia. }
    assert (Hincl : incl candidates existingSlugs).
    { intros c Hc. apply in_map_iff in Hc. destruct Hc as (i & <- & Hi).
      apply in_seq in Hi. apply Hall. lia. }
    pose proof (NoDup_incl_length Hnodup Hincl) as Hlen.
    unfold candidates in Hlen. rewrite length_map, length_seq in Hlen.
    fold n in Hlen. lia.
Qed.

(** ** ImageProcessingService.extractPrimaryColor, outside the usual case *)

Lemma append_length (a b : string) :
  String.length (a ++ b) = (String.length a + String.length b)%nat.
Proof. induction a as [|c a IH]; cbn; [reflexivity|]. rewrite IH. reflexivity. Qed.

Lemma hex_digits_length (fuel : nat) :
  forall n acc,
    (String.length acc <= String.length (Js.hex_digits fuel n acc))%nat /\
    (fuel <> O ->
     String.length acc < String.length (Js.hex_digits fuel n acc))%nat.
Proof.
  induction fuel as [|fuel IH]; intros n acc; cbn [Js.hex_digits].
  - split; [lia|]. intros H. contradiction.
  - destruct (n / 16 =? 0).
    + cbn. split; [lia|]. intros _. lia.
    + destruct (IH (n / 16) (String (Js.hex_digit (n mod 16)) acc))
        as [Hle _].
      cbn in Hle. split; [lia|]. intros _. lia.
Qed.

Lemma hex2_length (v : Z) : (2 <= String.length (hex2 v))%nat.
Proof.
  unfold hex2, Js.padStart. rewrite append_length.
  assert (Hrep : forall c n, String.length (Js.repeat_char c n) = n).
  { intros c n. induction n as [|n IH]; cbn; [reflexivity|].
    rewrite IH. reflexivity. }
  rewrite Hrep. lia.
Qed.

Lemma hex2_negative (v : Z) :
  v < 0 -> exists digits, hex2 v = String "-" digits.
Proof.
  intros Hv. unfold hex2, Js.toString16.
  replace (v <? 0) with true by (symmetry; apply Z.ltb_lt; exact Hv).
  set (digits := Js.hex_digits _ _ _).
  assert (Hlen : (0 < String.length digits)%nat).
  { destruct (hex_digits_length (S (Z.to_nat (Z.log2 (Z.abs v))))
                (Z.abs v) "") as [_ Hlt].
    apply Hlt. discriminate. }
  exists digits. unfold Js.padStart. cbn [String.length].
  destruct (String.length digits) as [|n]; [lia|]. reflexivity.
Qed.

Lemma hex_digits_step (fuel : nat) (n : Z) (acc : string) :
  (n / 16 =? 0) = false ->
  Js.hex_digits (S fuel) n acc =
  Js.hex_digits fuel (n / 16) (String (Js.hex_digit (n mod 16)) acc).
Proof. intros H. cbn [Js.hex_digits]. rewrite H. reflexivity. Qed.

Lemma hex2_large (v : Z) : 256 <= v -> (3 <= String.length (hex2 v))%nat.
Proof.
  intros Hv. unfold hex2, Js.padStart. rewrite append_length.
  unfold Js.toString16.
  replace (v <? 0) with false by (symmetry; apply Z.ltb_ge; lia).
  rewrite Z.abs_eq by lia.
  assert (Hlog : 8 <= Z.log2 v).
  { change 8 with (Z.log2 256). apply Z.log2_le_mono. exact Hv. }
  destruct (Z.to_nat (Z.log2 v)) as [|[|fuel]] eqn:Hfuel; try lia.
  assert (H1 : (v / 16 =? 0) = false).
  { apply Z.eqb_neq. intros H0.
    assert (16 <= v / 16) by (apply Z.div_le_lower_bound; lia). lia. }
  assert (H2 : (v / 16 / 16 =? 0) = false).
  { apply Z.eqb_neq. intros H0.
    assert (1 <= v / 16 / 16).
    { apply Z.div_le_lower_bound; [lia|].
      apply Z.div_le_lower_bound; lia. }
    lia. }
  rewrite (hex_digits_step _ _ _ H1), (hex_digits_step _ _ _ H2).
  destruct (hex_digits_length (S fuel) (v / 16 / 16)
              (String (Js.hex_digit (v / 16 mod 16))
                 (String (Js.hex_digit (v mod 16)) "")))
    as [_ Hlt].
  specialize (Hlt ltac:(discriminate)). cbn [String.length] in Hlt.
  set (digits := Js.hex_digits (S fuel) _ _) in *. lia.
Qed.

Lemma parse_hex_color_length (s : string) (rgb : Z * Z * Z) :
  parse_hex_color s = Some rgb -> String.length s = 7%nat.
Proof.
  unfold parse_hex_color.
  destruct s as [|c0 [|c1 [|c2 [|c3 [|c4 [|c5 [|c6 [|c7 s]]]]]]]];
    try discriminate;
    destruct c0 as [[] [] [] [] [] [] [] []]; try discriminate;
    reflexivity.
Qed.

Lemma parse_channel_not_hyphen (lo : ascii) : parse_channel "-" lo = None.
Proof. reflexivity. Qed.

(** A channel value that [hex2] writes in two hexadecimal digits is a
    byte. *)
Lemma hex2_two_digits (v : Z) (hi lo : ascii) (x : Z) :
  hex2 v = String hi (String lo EmptyString) ->
  parse_channel hi lo = Some x ->
  0 <= v <= 255.
Proof.
  intros Hhex Hparse.
  destruct (Z_lt_le_dec v 0) as [Hneg|Hpos].
  - destruct (hex2_negative v Hneg) as [digits Hd].
    rewrite Hd in Hhex. inversion Hhex; subst.
    rewrite parse_channel_not_hyphen in Hparse. discriminate.
  - destruct (Z_le_gt_dec 256 v) as [Hbig|Hsmall]; [|lia].
    pose proof (hex2_large v Hbig) as Hlen. rewrite Hhex in Hlen.
    cbn in Hlen. lia.
Qed.

Lemma hex_color_channels_are_bytes (r g b : Z) :
  is_hex_color ("#" ++ hex2 r ++ hex2 g ++ hex2 b) = true ->
  0 <= r <= 255 /\ 0 <= g <= 255 /\ 0 <= b <= 255.
Proof.
  unfold is_hex_color.
  destruct (parse_hex_color ("#" ++ hex2 r ++ hex2 g ++ hex2 b))
    as [rgb|] eqn:Hparse; [intros _|discriminate].
  pose proof (parse_hex_color_length _ _ Hparse) as Hlen.
  cbn [append String.length] in Hlen. rewrite !append_length in Hlen.
  pose proof (hex2_length r) as Hr.
  pose proof (hex2_length g) as Hg.
  pose proof (hex2_length b) as Hb.
  remember (hex2 r) as hr eqn:Er. remember (hex2 g) as hg eqn:Eg.
  remember (hex2 b) as hb eqn:Eb. symmetry in Er, Eg, Eb.
  destruct hr as [|r1 [|r2 [|]]]; cbn [String.length] in Hlen, Hr; try lia.
  destruct hg as [|g1 [|g2 [|]]]; cbn [String.length] in Hlen, Hg; try lia.
  destruct hb as [|b1 [|b2 [|]]]; cbn [String.length] in Hlen, Hb; try lia.
  cbn [append parse_hex_color] in Hparse.
  destruct (parse_channel r1 r2) as [xr|] eqn:Hpr; [|discriminate].
  destruct (parse_channel g1 g2) as [xg|] eqn:Hpg; [|discriminate].
  destruct (parse_channel b1 b2) as [xb|] eqn:Hpb; [|discriminate].
  split; [exact (hex2_two_digits r r1 r2 xr Er Hpr)|].
  split; [exact (hex2_two_digits g g1 g2 xg Eg Hpg)|].
  exact (hex2_two_digits b b1 b2 xb Eb Hpb).
Qed.

(** X4. For an image of three or more channels [extractPrimaryColor]
    returns [#] followed by the three rounded means in hexadecimal, padded
    to two digits but not clamped: the result is a seven-character
    [#rrggbb] colour exactly when each rounded mean lies between 0 and
    255. *)
Theorem extractPrimaryColor_wellformed_iff_bytes (w : World) (buf : Buffer)
    (s : State) (cr cg cb : ChannelStats) (rest : list ChannelStats) :
  sharp_stats (sharp w) buf = inr (mkStats (cr :: cg :: cb :: rest)) ->
  exists color,
    extractPrimaryColor w buf s = (inr color, s) /\
    (is_hex_color color = true <->
     0 <= Js.round (mean cr) <= 255 /\
     0 <= Js.round (mean cg) <= 255 /\
     0 <= Js.round (mean cb) <= 255).
Proof.
  intros Hstats.
  pose proof (extractPrimaryColor_try_outcome (sharp w) buf) as Hout.
  rewrite Hstats in Hout.
  unfold extractPrimaryColor, try_catch. rewrite lift_run, Hout.
  eexists. split; [reflexivity|]. split.
  - apply hex_color_channels_are_bytes.
  - intros (Hr & Hg & Hb). unfold is_hex_color.
    rewrite (hex_color_of_channels _ _ _ Hr Hg Hb). reflexivity.
Qed.

Lemma extractPrimaryColor_wellformed_iff_bytes_witness :
  exists color,
    extractPrimaryColor (Sample.world [] Sample.cloudinary_rows)
      Sample.photo Sample.boot = (inr color, Sample.boot) /\
    (is_hex_color color = true <->
     0 <= 200 <= 255 /\ 0 <= 100 <= 255 /\ 0 <= 50 <= 255).
Proof.
  exact (extractPrimaryColor_wellformed_iff_bytes
           (Sample.world [] Sample.cloudinary_rows) Sample.photo Sample.boot
           (mkChannel (inject_Z 200)) (mkChannel (inject_Z 100))
           (mkChannel (inject_Z 50)) [] eq_refl).
Defined.

(** X5. On an image with fewer than three channels (greyscale, with or
    without alpha) reading the missing channel throws inside the [try]
    block: [extractPrimaryColor] logs that error and returns [#000000]. *)
Theorem extractPrimaryColor_few_channels (w : World) (buf : Buffer)
    (s : State) (stats : Stats) :
  sharp_stats (sharp w) buf = inr stats ->
  (List.length (channels stats) < 3)%nat ->
  exists e,
    kind e = TypeError /\
    extractPrimaryColor w buf s =
    (inr "#000000",
     record [ConsoleError "Failed to extract primary color:" e] s).
Proof.
  intros Hstats Hlen.
  unfold extractPrimaryColor, try_catch, extractPrimaryColor_try.
  rewrite lift_run, Hstats. destruct stats as [chs]. cbn in Hlen.
  destruct chs as [|c0 [|c1 [|c2 rest]]]; cbn in Hlen; try lia;
    eexists; (split; [|reflexivity]); reflexivity.
Qed.

Lemma extractPrimaryColor_few_channels_witness :
  exists e,
    kind e = TypeError /\
    extractPrimaryColor
      (mkWorld
         (mkSharp Sample.metadata Sample.toBuffer
            (fun _ => inr (mkStats [mkChannel (inject_Z 128)])))
         Sample.cloudinary_rows (Sample.upload_stream [])
         (fun _ => inr tt) "" "" "" 0 (fun t => t) []
         (fun _ => inr 1) (fun _ _ => inr tt) (fun _ => inr tt)
         (fun _ => inr None))
      Sample.photo Sample.boot =
    (inr "#000000",
     record [ConsoleError "Failed to extract primary color:" e] Sample.boot).
Proof.
  eapply extractPrimaryColor_few_channels; [reflexivity|].
  cbn. apply le_n_S, le_n_S, le_0_n.
Defined.

(** ** ImageProcessingService.generateAllResolutions, entry by entry *)

Lemma generation_log_counts (sh : Sharp) (buf : Buffer)
    (specs : list ResolutionConfig) :
  List.length (List.filter is_resize (generation_log sh buf specs)) =
  List.length specs /\
  (List.length (List.filter is_console_error (generation_log sh buf specs)) +
   List.length (generated sh buf specs))%nat = List.length specs /\
  Forall (fun ev => is_resize ev = true \/ is_console_error ev = true)
    (generation_log sh buf specs).
Proof.
  induction specs as [|res rest (IHr & IHc & IHf)];
    [cbn; repeat split; constructor|].
  cbn [generation_log generated].
  destruct (resize sh buf (width res) (height res) None) as [e|p];
    cbn [List.filter is_resize is_console_error List.length];
    rewrite IHr; repeat split; try lia;
    repeat (constructor; [cbn; auto|]); exact IHf.
Qed.

(** X6. [generateAllResolutions(buffer, false)] never throws. It calls
    [resize] once per catalog entry, all nine, whatever fails; it returns
    the entries whose resize succeeded, under their catalog names and in
    catalog order, and writes one console line for each of the others. *)
Theorem generateAllResolutions_skips_failures (w : World) (buf : Buffer)
    (s : State) :
  exists resolutions new,
    generateAllResolutions w buf false s = (inr resolutions, record new s) /\
    map_keys resolutions =
    List.map name
      (List.filter
         (fun res =>
            is_ok (resize (sharp w) buf (width res) (height res) None))
         RESOLUTIONS) /\
    List.length (List.filter is_resize new) = 9%nat /\
    (List.length (List.filter is_console_error new) +
     List.length resolutions)%nat = 9%nat /\
    Forall (fun ev => is_resize ev = true \/ is_console_error ev = true) new.
Proof.
  exists (generated (sharp w) buf RESOLUTIONS),
    (generation_log (sharp w) buf RESOLUTIONS).
  destruct (generation_log_counts (sharp w) buf RESOLUTIONS)
    as (Hr & Hc & Hf).
  split; [apply generateAllResolutions_run|].
  split; [apply generated_keys|]. auto.
Qed.

(** X7. With [includeOriginal] (the default) [generateAllResolutions] reads
    the metadata outside any [try]: on a buffer the codec cannot decode it
    throws the codec's error before any resize; otherwise the map starts
    with the entry [original], holding the input buffer and its size, and
    the generated variants follow. *)
Theorem generateAllResolutions_with_original (w : World) (buf : Buffer)
    (s : State) :
  match sharp_metadata (sharp w) buf with
  | inl e => generateAllResolutions w buf true s = (inl e, s)
  | inr metadata =>
      exists original,
        generateAllResolutions w buf true s =
        (inr (("original", original) :: generated (sharp w) buf RESOLUTIONS),
         record (generation_log (sharp w) buf RESOLUTIONS) s) /\
        pi_buffer original = buf /\
        pi_width original = Js.or_num (md_width metadata) 0 /\
        pi_height original = Js.or_num (md_height metadata) 0 /\
        pi_size original = buffer_length buf
  end.
Proof.
  unfold generateAllResolutions.
  destruct (sharp_metadata (sharp w) buf) as [e|metadata] eqn:Hmd.
  - reflexivity.
  - eexists. split.
    + unfold bind, lift, ret. cbn [map_set].
      rewrite generate_loop_run.
      * reflexivity.
      * exact catalog_names_distinct.
      * intros res Hin Hkey. cbn in Hkey. destruct Hkey as [Hkey|[]].
        cbn in Hin.
        repeat (destruct Hin as [<-|Hin]; [discriminate Hkey|]).
        contradiction.
    + repeat split.
Qed.

(** ** StorageFactory.getServiceById *)

Lemma createService_run (provider : string) (s : State) :
  exists log,
    StorageFactory.createService provider s =
    (inr (mkService (allocated s) (configured_provider (inr [provider]))),
     mkState (instance s) (S (allocated s)) (queries s) (trace s ++ log)) /\
    Forall (fun ev => is_console ev = true) log.
Proof.
  unfold StorageFactory.createService. cbn [configured_provider].
  destruct (Js.toLowerCase provider =? "cloudinary")%string eqn:Hc.
  - apply String.eqb_eq in Hc. rewrite Hc. exists [].
    cbn. rewrite app_nil_r. split; [reflexivity|constructor].
  - destruct (Js.toLowerCase provider =? "s3")%string.
    + exists []. cbn. rewrite app_nil_r. split; [reflexivity|constructor].
    + eexists. cbn. split; [reflexivity|]. repeat constructor.
Qed.

(** X8. [getServiceById] goes past the cache. Without a matching row it
    throws [Storage provider not found] and changes nothing; when the
    lookup itself fails it throws that failure; with a row it constructs a
    new service of the class the row names (S3 for [s3] in any letter case,
    Cloudinary otherwise) and leaves [StorageFactory.instance] and the
    count of configuration reads as they were. *)
Theorem getServiceById_bypasses_cache (lookup : Z -> exn + list string)
    (providerId : Z) (s : State) :
  match lookup providerId with
  | inl e => getServiceById lookup providerId s = (inl e, s)
  | inr [] =>
      exists e,
        message e = "Storage provider not found" /\
        getServiceById lookup providerId s = (inl e, s)
  | inr (provider_name :: _) =>
      exists s',
        getServiceById lookup providerId s =
        (inr (mkService (allocated s)
                (configured_provider (inr [provider_name]))), s') /\
        instance s' = instance s /\
        queries s' = queries s /\
        allocated s' = S (allocated s)
  end.
Proof.
  unfold getServiceById, bind. rewrite lift_run.
  destruct (lookup providerId) as [e|[|provider_name rest]].
  - reflexivity.
  - eexists. split; [|reflexivity]. reflexivity.
  - destruct (createService_run provider_name s) as (log & Hrun & _).
    rewrite Hrun. eexists. split; [reflexivity|]. repeat split.
Qed.

(** ** S3Service *)

(** X9. A successful [S3Service.upload] stores the object under the key
    [folder/filename] ([wallpapers] and a random name standing in for a
    missing folder or filename), returns that key as [publicId], and
    [getUrl] of that key gives back the upload's URL whatever
    transformation options are passed; the buffer was one the codec could
    decode, and [size] is its length. *)
Theorem S3_upload_getUrl_round_trip (w : World) (file : Buffer)
    (options : UploadOptions) (result : UploadResult) :
  S3Service_upload w file options = inr result ->
  let key :=
    Js.or_str (uo_folder options) "wallpapers" ++ "/" ++
    Js.or_str (uo_filename options) (randomBytes_hex w) in
  publicId result = Some key /\
  (forall urlOptions, S3Service_getUrl w key urlOptions = url result) /\
  decodable (sharp w) file /\
  ur_size result = Some (buffer_length file).
Proof.
  unfold S3Service_upload, decodable.
  destruct (sharp_metadata (sharp w) file) as [e|metadata];
    [discriminate|].
  destruct (s3_send w _); [discriminate|].
  intros H. inversion H; subst. cbn. repeat split. eauto.
Qed.

Lemma S3_upload_getUrl_round_trip_witness :
  exists result,
    S3Service_upload (Sample.world [] Sample.cloudinary_rows) Sample.photo
      (mkUploadOptions None (Some "sunset") None) = inr result /\
    publicId result = Some "wallpapers/sunset" /\
    S3Service_getUrl (Sample.world [] Sample.cloudinary_rows)
      "wallpapers/sunset"
      (Some (mkUrlOptions (Some 100) (Some 100) None None)) = url result.
Proof.
  eexists. split; [reflexivity|].
  destruct (S3_upload_getUrl_round_trip
              (Sample.world [] Sample.cloudinary_rows) Sample.photo
              (mkUploadOptions None (Some "sunset") None) _ eq_refl)
    as (Hid & Hurl & _).
  split; [exact Hid|apply Hurl].
Defined.

Lemma S3_generate_entry_run (w : World) (svc : Service) (file : Buffer)
    (folder filename : option string) (random : string) (res : S3Resolution)
    (s : State) :
  exists log,
    S3_generate_entry w svc file folder filename random res s =
    (S3_entry_outcome w file folder filename random res, record log s) /\
    (log ++
     match S3_entry_outcome w file folder filename random res with
     | inl e =>
         [ConsoleError
            ("Failed to generate " ++ s3_name res ++ " resolution:") e]
     | inr _ => []
     end)%list =
    S3_entry_log w svc file folder filename random res.
Proof.
  unfold S3_generate_entry, S3_entry_outcome, S3_entry_log, bind.
  rewrite lift_run.
  destruct (S3_process w file res) as [e|[[processedBuffer rw] rh]].
  - exists []. rewrite record_nil. split; reflexivity.
  - rewrite emit_run, lift_run.
    destruct (S3Service_upload w processedBuffer _) as [e|result];
      eexists; split; reflexivity.
Qed.

Lemma S3_generate_loop_run (w : World) (svc : Service) (file : Buffer)
    (folder filename : option string) (random : nat -> string)
    (resolutions : list S3Resolution) :
  forall i results s,
    S3_generate_loop w svc file folder filename random i resolutions results
      s =
    (inr (results ++
          successes (S3_outcomes w file folder filename random i resolutions))%list,
     record (S3_log w svc file folder filename random i resolutions) s).
Proof.
  induction resolutions as [|res rest IH]; intros i results s.
  - cbn. rewrite app_nil_r, record_nil. reflexivity.
  - cbn [S3_generate_loop S3_outcomes S3_log successes].
    unfold bind at 1. unfold try_catch. unfold bind at 1.
    destruct (S3_generate_entry_run w svc file folder filename (random i)
                res s) as (log & Hrun & Hlog).
    rewrite Hrun. rewrite <- Hlog.
    destruct (S3_entry_outcome w file folder filename (random i) res)
      as [e|result].
    + unfold bind. rewrite emit_run. cbn [ret]. rewrite IH.
      rewrite !record_record, <- app_assoc. reflexivity.
    + cbn [ret]. rewrite IH. rewrite record_record, app_nil_r, <- app_assoc.
      reflexivity.
Qed.

Lemma S3_log_counts (w : World) (svc : Service) (file : Buffer)
    (folder filename : option string) (random : nat -> string)
    (resolutions : list S3Resolution) :
  forall i,
    (List.length
       (List.filter is_console_error
          (S3_log w svc file folder filename random i resolutions)) +
     List.length
       (successes (S3_outcomes w file folder filename random i resolutions)))%nat
    = List.length resolutions /\
    List.length
      (List.filter is_upload
         (S3_log w svc file folder filename random i resolutions)) =
    List.length
      (List.filter (fun res => is_ok (S3_process w file res)) resolutions) /\
    Forall (fun ev => is_upload ev = true \/ is_console_error ev = true)
      (S3_log w svc file folder filename random i resolutions).
Proof.
  induction resolutions as [|res rest IH]; intros i;
    [cbn; repeat split; constructor|].
  destruct (IH (S i)) as (IHc & IHu & IHf).
  cbn [S3_log S3_outcomes successes List.filter List.length].
  rewrite !filter_app, !length_app.
  unfold S3_entry_log, S3_entry_outcome.
  destruct (S3_process w file res) as [e|[[processedBuffer rw] rh]].
  - cbn. rewrite IHu. repeat split; try lia.
    constructor; [right; reflexivity|exact IHf].
  - destruct (S3Service_upload w processedBuffer _) as [e|result];
      cbn; rewrite IHu; repeat split; try lia;
      repeat (constructor; [cbn; auto|]); exact IHf.
Qed.

(** X10. [S3Service.generateResolutions] never throws, whatever fails: for
    each of its six entries it either appends the entry's result or logs
    the entry's failure and goes on, so the results are the successful
    entries in order (six at most, none if all fail); an upload is issued
    for exactly those entries whose image processing succeeded. *)
Theorem S3_generateResolutions_contains_failures (w : World) (svc : Service)
    (file : Buffer) (folder filename : option string)
    (random : nat -> string) (s : State) :
  exists results new,
    S3Service_generateResolutions w svc file folder filename random s =
    (inr results, record new s) /\
    results =
    successes (S3_outcomes w file folder filename random 0 S3_RESOLUTIONS) /\
    (List.length (List.filter is_console_error new) +
     List.length results)%nat = 6%nat /\
    List.length (List.filter is_upload new) =
    List.length
      (List.filter (fun res => is_ok (S3_process w file res)) S3_RESOLUTIONS)
    /\
    Forall (fun ev => is_upload ev = true \/ is_console_error ev = true) new.
Proof.
  unfold S3Service_generateResolutions.
  rewrite S3_generate_loop_run. cbn [app].
  destruct (S3_log_counts w svc file folder filename random S3_RESOLUTIONS 0)
    as (Hc & Hu & Hf).
  do 2 eexists. split; [reflexivity|]. split; [reflexivity|]. auto.
Qed.

(** ** CloudinaryService.generateResolutions *)

Lemma Cloudinary_generate_loop_run
    (cloudinary_url : string -> Transformations -> exn + string)
    (originalUpload : UploadResult) (resolutions : list ResolutionConfig) :
  forall results s,
    Cloudinary_generate_loop cloudinary_url originalUpload resolutions
      results s =
    (inr (results ++
          successes
            (List.map (cloudinary_derived cloudinary_url originalUpload)
               resolutions))%list,
     record (cloudinary_log cloudinary_url originalUpload resolutions) s).
Proof.
  induction resolutions as [|res rest IH]; intros results s.
  - cbn. rewrite app_nil_r, record_nil. reflexivity.
  - cbn [Cloudinary_generate_loop cloudinary_log List.map successes].
    unfold bind at 1. unfold try_catch. unfold bind at 1.
    rewrite lift_run.
    destruct (cloudinary_derived cloudinary_url originalUpload res)
      as [e|derived].
    + unfold bind. rewrite emit_run. cbn [ret]. rewrite IH.
      rewrite record_record. reflexivity.
    + cbn [ret]. rewrite IH, <- app_assoc. reflexivity.
Qed.

Lemma cloudinary_log_console
    (cloudinary_url : string -> Transformations -> exn + string)
    (originalUpload : UploadResult) (resolutions : list ResolutionConfig) :
  Forall (fun ev => is_console_error ev = true)
    (cloudinary_log cloudinary_url originalUpload resolutions) /\
  (List.length (cloudinary_log cloudinary_url originalUpload resolutions) +
   List.length
     (successes
        (List.map (cloudinary_derived cloudinary_url originalUpload)
           resolutions)))%nat = List.length resolutions.
Proof.
  induction resolutions as [|res rest [IHf IHc]]; [split; [constructor|reflexivity]|].
  cbn [cloudinary_log List.map successes].
  destruct (cloudinary_derived cloudinary_url originalUpload res);
    cbn [List.length]; split; try lia; try exact IHf.
  constructor; [reflexivity|exact IHf].
Qed.

(** X11. [CloudinaryService.generateResolutions] uploads once, the original,
    outside any [try]: when that upload fails the whole call throws its
    error. When it succeeds the call cannot fail any more: the result is the
    original followed by one entry per resolution whose URL could be built
    (five when none fails), named after the original's public id, and no
    further upload and no resize takes place. *)
Theorem Cloudinary_generateResolutions_single_upload (w : World)
    (cloudinary_url : string -> Transformations -> exn + string)
    (svc : Service) (file : Buffer) (folder filename : option string)
    (s : State) :
  let options := Cloudinary_original_options folder filename in
  match CloudinaryService_upload w file options with
  | inl e =>
      CloudinaryService_generateResolutions w cloudinary_url svc file
        folder filename s =
      (inl e, record [UploadCall svc file options] s)
  | inr originalUpload =>
      exists derived log,
        CloudinaryService_generateResolutions w cloudinary_url svc file
          folder filename s =
        (inr (originalUpload :: derived),
         record (UploadCall svc file options :: log) s) /\
        derived =
        successes
          (List.map (cloudinary_derived cloudinary_url originalUpload)
             CLOUDINARY_RESOLUTIONS) /\
        Forall (fun ev => is_console_error ev = true) log /\
        (List.length log + List.length derived)%nat = 5%nat
  end.
Proof.
  intros options. unfold CloudinaryService_generateResolutions.
  fold options. cbn zeta.
  destruct (CloudinaryService_upload w file options) as [e|originalUpload];
    [reflexivity|].
  unfold bind, lift. rewrite emit_run.
  rewrite Cloudinary_generate_loop_run, record_record.
  destruct (cloudinary_log_console cloudinary_url originalUpload
              CLOUDINARY_RESOLUTIONS) as [Hf Hc].
  do 2 eexists. split; [reflexivity|]. split; [reflexivity|].
  split; [exact Hf|exact Hc].
Qed.

(** ** WallpaperController.create: what a response tells *)

Lemma bind_post {A B} (P : B -> Prop) (m : M A) (k : A -> M B)
    (s s' : State) (b : B) :
  bind m k s = (inr b, s') ->
  (forall a s1, k a s1 = (inr b, s') -> P b) ->
  P b.
Proof.
  unfold bind. destruct (m s) as [[e|a] s1]; [discriminate|].
  intros H Hk. exact (Hk a s1 H).
Qed.

Lemma sweep_and_respond_status (w : World) (file : UploadedFile)
    (metadata : Metadata) (slug : string) (svc : Service)
    (originalUpload : UploadResult) (wallpaperId : Z) (s s' : State)
    (r : Response) :
  sweep_and_respond w file metadata slug svc originalUpload wallpaperId s =
  (inr r, s') ->
  status r = 201.
Proof.
  unfold sweep_and_respond. intros H.
  apply (bind_post (fun r => status r = 201) _ _ _ _ _ H). intros resolutions s1 H1.
  apply (bind_post (fun r => status r = 201) _ _ _ _ _ H1). intros rows s2 H2.
  apply (bind_post (fun r => status r = 201) _ _ _ _ _ H2). intros [] s3 H3.
  apply (bind_post (fun r => status r = 201) _ _ _ _ _ H3). intros wallpaper s4 H4.
  inversion H4. reflexivity.
Qed.

Lemma upload_and_persist_status (w : World) (req : Request)
    (file : UploadedFile) (metadata : Metadata) (primaryColor slug : string)
    (svc : Service) (thumbnail medium : ProcessedImage) (s s' : State)
    (r : Response) :
  upload_and_persist w req file metadata primaryColor slug svc thumbnail
    medium s = (inr r, s') ->
  status r = 201.
Proof.
  unfold upload_and_persist. intros H.
  apply (bind_post (fun r => status r = 201) _ _ _ _ _ H). intros [[o t] m] s1 H1.
  apply (bind_post (fun r => status r = 201) _ _ _ _ _ H1). intros tags s2 H2.
  apply (bind_post (fun r => status r = 201) _ _ _ _ _ H2). intros wallpaperId s3 H3.
  apply (bind_post (fun r => status r = 201) _ _ _ _ _ H3). intros categoryIds s4 H4.
  apply (bind_post (fun r => status r = 201) _ _ _ _ _ H4). intros [] s5 H5.
  exact (sweep_and_respond_status _ _ _ _ _ _ _ _ _ _ H5).
Qed.

Lemma validate_and_ingest_status (w : World) (req : Request)
    (file : UploadedFile) (s s' : State) (r : Response) :
  validate_and_ingest w req file s = (inr r, s') ->
  status r = 400 /\ s' = s \/ status r = 201.
Proof.
  unfold validate_and_ingest. unfold bind at 1. rewrite lift_run.
  destruct (validate (sharp w) (f_buffer file) (validate_options w))
    as [e|validation]; [discriminate|].
  destruct (valid validation); cbn [negb].
  - intros H. right.
    apply (bind_post (fun r => status r = 201) _ _ _ _ _ H). intros metadata s1 H1.
    apply (bind_post (fun r => status r = 201) _ _ _ _ _ H1). intros primaryColor s2 H2.
    cbn zeta in H2.
    apply (bind_post (fun r => status r = 201) _ _ _ _ _ H2). intros storageService s3 H3.
    apply (bind_post (fun r => status r = 201) _ _ _ _ _ H3). intros thumbnail s4 H4.
    apply (bind_post (fun r => status r = 201) _ _ _ _ _ H4). intros medium s5 H5.
    exact (upload_and_persist_status _ _ _ _ _ _ _ _ _ _ _ _ H5).
  - intros H. inversion H. left. split; reflexivity.
Qed.

(** X12. [create] always answers, whatever fails inside it, with status
    201, 400 or 500. A 400 answer comes before any effect: the state is
    the one [create] started from (no query, resize, upload or row). A 500
    answer carries the message of the error that was caught (or
    [Failed to upload wallpaper] when the message is empty), and that error
    is the last line written to the console. *)
Theorem create_always_responds (w : World) (req : Request) (s : State) :
  exists r s',
    create w req s = (inr r, s') /\
    (status r = 201 \/ status r = 400 \/ status r = 500) /\
    (status r = 400 -> s' = s) /\
    (status r = 500 ->
     exists e before,
       trace s' =
       (before ++ [ConsoleError "Upload wallpaper error:" e])%list /\
       body r =
       ErrorBody (Js.or_str (Some (message e)) "Failed to upload wallpaper")).
Proof.
  unfold create, try_catch.
  set (body :=
         match req_file req with
         | Some file =>
             match req_category_ids req with
             | CatMalformed =>
                 ret (mkResponse 400 (ErrorBody "Invalid category_ids format"))
             | _ => validate_and_ingest w req file
             end
         | None => ret (mkResponse 400 (ErrorBody "Image file is required"))
         end).
  assert (Hcases : forall r s', body s = (inr r, s') ->
                     status r = 400 /\ s' = s \/ status r = 201).
  { intros r s'. unfold body.
    destruct (req_file req) as [file|].
    - destruct (req_category_ids req);
        try apply validate_and_ingest_status.
      intros H. inversion H. left. split; reflexivity.
    - intros H. inversion H. left. split; reflexivity. }
  destruct (body s) as [[e|r] s1] eqn:Hrun.
  - do 2 eexists. split; [reflexivity|]. cbn.
    split; [auto|]. split; [discriminate|].
    intros _. exists e, (trace s1). split; reflexivity.
  - exists r, s1. split; [reflexivity|].
    destruct (Hcases r s1 eq_refl) as [[H400 Hs]|H201].
    + split; [auto|]. split; [auto|]. rewrite H400. discriminate.
    + split; [auto|]. rewrite H201. split; discriminate.
Qed.

Lemma bulkCreate_run (w : World) (rows : list ResolutionRow)
    (last : ResolutionRow) (s : State) :
  WallpaperResolutionModel_bulkCreate w (rows ++ [last]) s =
  (insert_resolutions w (rows ++ [last]),
   record [InsertResolutions (rows ++ [last])] s).
Proof.
  unfold WallpaperResolutionModel_bulkCreate.
  destruct (rows ++ [last])%list eqn:Hrows; [|reflexivity].
  apply app_eq_nil in Hrows. destruct Hrows as [_ Hlast]. discriminate.
Qed.

Lemma sweep_without_error (w : World) (svc : Service) (slug : string)
    (wallpaperId : Z) (entries : JsMap ProcessedImage) :
  sweep_error w svc slug entries = None ->
  sweep_attempted w svc slug entries = entries /\
  List.map resolution_name (uploaded_rows w svc slug wallpaperId entries) =
  map_keys entries /\
  ((forall n p, In (n, p) entries -> n <> "original") ->
   Forall (fun row => is_original row = 0)
     (uploaded_rows w svc slug wallpaperId entries)).
Proof.
  induction entries as [|[n p] rest IH]; [cbn; repeat split; constructor|].
  cbn [sweep_error sweep_attempted uploaded_rows].
  destruct (upload_outcome w svc (pi_buffer p) (sweep_options slug n))
    as [e|r]; [discriminate|].
  intros Herr. destruct (IH Herr) as (Ha & Hn & Ho).
  rewrite Ha. cbn. rewrite Hn. repeat split.
  intros Hnames. constructor.
  - cbn. destruct (String.eqb_spec n "original") as [Heq|_]; [|reflexivity].
    exfalso. exact (Hnames n p (or_introl eq_refl) Heq).
  - apply Ho. intros n' p' Hin. apply (Hnames n' p'). right. exact Hin.
Qed.

Lemma generated_not_original (sh : Sharp) (buf : Buffer) (n : string)
    (p : ProcessedImage) :
  In (n, p) (generated sh buf RESOLUTIONS) -> n <> "original".
Proof.
  intros Hin. destruct (generated_In _ _ _ _ _ Hin) as (res & Hres & -> & _).
  cbn in Hres.
  repeat (destruct Hres as [<-|Hres]; [discriminate|]). contradiction.
Qed.

Lemma no_original_among (rows : list ResolutionRow) :
  Forall (fun row => is_original row = 0) rows ->
  List.filter (fun row => is_original row =? 1) rows = [].
Proof.
  induction 1 as [|row rows Hrow _ IH]; [reflexivity|].
  cbn. rewrite Hrow. exact IH.
Qed.

(** X13. The last part of [create] degrades with the resize failures: if
    every variant that was generated is uploaded and the two database
    calls succeed, the answer is 201 whichever resizes failed. The rows
    written are one per generated variant, in catalog order, then the row
    [Original]; that last row is the only one flagged [is_original]. *)
Theorem sweep_and_respond_writes_rows (w : World) (file : UploadedFile)
    (metadata : Metadata) (slug : string) (svc : Service)
    (originalUpload : UploadResult) (wallpaperId : Z) (s : State)
    (data : option string) :
  let entries := generated (sharp w) (f_buffer file) RESOLUTIONS in
  let original := original_row wallpaperId metadata file originalUpload in
  let rows :=
    (uploaded_rows w svc slug wallpaperId entries ++ [original])%list in
  sweep_error w svc slug entries = None ->
  insert_resolutions w rows = inr tt ->
  select_wallpaper w wallpaperId = inr data ->
  sweep_and_respond w file metadata slug svc originalUpload wallpaperId s =
  (inr (mkResponse 201 (CreatedBody "Wallpaper uploaded successfully" data)),
   record
     (generation_log (sharp w) (f_buffer file) RESOLUTIONS ++
      upload_events svc slug entries ++
      [InsertResolutions rows; SelectWallpaper wallpaperId]) s) /\
  List.map resolution_name rows = (map_keys entries ++ ["Original"])%list /\
  List.filter (fun row => is_original row =? 1) rows = [original].
Proof.
  intros entries original rows Herr Hinsert Hselect.
  destruct (sweep_without_error w svc slug wallpaperId entries Herr)
    as (Hatt & Hnames & Hflags).
  split; [|split].
  - unfold sweep_and_respond. unfold bind at 1.
    rewrite generateAllResolutions_run. unfold bind at 1.
    rewrite upload_resolutions_run. fold entries. rewrite Herr, Hatt.
    cbn [app]. fold original. fold rows.
    unfold bind at 1. unfold rows at 1. rewrite bulkCreate_run.
    fold rows. rewrite Hinsert.
    unfold bind at 1. unfold WallpaperModel_findById, bind.
    rewrite emit_run, lift_run, Hselect. cbn [ret].
    rewrite !record_record. reflexivity.
  - unfold rows. rewrite map_app, Hnames. reflexivity.
  - unfold rows. rewrite filter_app.
    rewrite (no_original_among _ (Hflags (generated_not_original _ _))).
    reflexivity.
Qed.

Lemma sweep_and_respond_writes_rows_witness :
  exists s',
    sweep_and_respond (Sample.world [] Sample.cloudinary_rows)
      (mkFile Sample.photo 8)
      (mkMetadata (Some 4000) (Some 3000) (Some "jpeg")) "sunset"
      (mkService 0 Cloudinary)
      (mkUploadResult "https://res.cloudinary.com/demo/sunset" None None
         None None None) 42 Sample.boot =
    (inr (mkResponse 201
            (CreatedBody "Wallpaper uploaded successfully"
               (Some "wallpaper 42"))), s').
Proof.
  eexists.
  apply (sweep_and_respond_writes_rows
           (Sample.world [] Sample.cloudinary_rows) (mkFile Sample.photo 8)
           (mkMetadata (Some 4000) (Some 3000) (Some "jpeg")) "sunset"
           (mkService 0 Cloudinary)
           (mkUploadResult "https://res.cloudinary.com/demo/sunset" None None
              None None None) 42 Sample.boot (Some "wallpaper 42"));
    reflexivity.
Defined.

(** X14. A request whose file the codec cannot decode is refused by
    [create] with status 400 and the single message [Invalid image file],
    before anything else happens: the state is left as it was. *)
Theorem create_rejects_undecodable (w : World) (req : Request) (s : State)
    (file : UploadedFile) (e : exn) :
  req_file req = Some file ->
  req_category_ids req <> CatMalformed ->
  sharp_metadata (sharp w) (f_buffer file) = inl e ->
  create w req s =
  (inr (mkResponse 400 (ErrorsBody ["Invalid image file"])), s).
Proof.
  intros Hfile Hcat Hmd. unfold create, try_catch. rewrite Hfile.
  assert (Hbody : validate_and_ingest w req file s =
                  (inr (mkResponse 400 (ErrorsBody ["Invalid image file"])), s)).
  { unfold validate_and_ingest, bind, validate. rewrite lift_run, Hmd.
    reflexivity. }
  destruct (req_category_ids req); [contradiction| |]; rewrite Hbody;
    reflexivity.
Qed.

Lemma create_rejects_undecodable_witness :
  create (Sample.world [] Sample.cloudinary_rows)
    (mkRequest (Some (mkFile Sample.garbage 12)) "Sunset" None (inr [])
       (CatParsed [3]) false 1) Sample.boot =
  (inr (mkResponse 400 (ErrorsBody ["Invalid image file"])), Sample.boot).
Proof.
  apply (create_rejects_undecodable _ _ _ (mkFile Sample.garbage 12)
           Sample.not_an_image).
  - reflexivity.
  - discriminate.
  - reflexivity.
Defined.

(** X15. Whatever the slug, the nine variants of the catalog sweep are
    uploaded under nine different file names: lower-casing the catalog
    names and replacing their spaces by hyphens keeps them apart, so no
    variant overwrites another in [wallpapers/resolutions]. *)
Theorem sweep_filenames_distinct (slug : string) :
  NoDup (List.map (fun res => sweep_filename slug (name res)) RESOLUTIONS).
Proof.
  assert (Hsuffix :
    NoDup (List.map
             (fun res => Js.replace_spaces false (Js.toLowerCase (name res)))
             RESOLUTIONS)).
  { vm_compute. repeat constructor; cbn; intuition discriminate. }
  rewrite <- (map_map
                (fun res => Js.replace_spaces false (Js.toLowerCase (name res)))
                (fun suffix => slug ++ "-" ++ suffix)).
  apply NoDup_map_inj; [|exact Hsuffix].
  intros x y Heq. apply append_inj, append_inj in Heq. exact Heq.
Qed.

(** ** What the validation of create lets through *)

(** X16. With a positive [MAX_FILE_SIZE], an image that passes the
    validation of [create] can be decoded, is of format jpeg, jpg, png or
    webp, is at most 10000 pixels wide and high (as far as the codec
    reports its size) and is no longer than [MAX_FILE_SIZE] bytes. *)
Theorem validation_accepts_only (w : World) (buf : Buffer)
    (r : ValidationResult) :
  0 < MAX_FILE_SIZE w ->
  validate (sharp w) buf (validate_options w) = inr r ->
  valid r = true ->
  exists metadata,
    sharp_metadata (sharp w) buf = inr metadata /\
    In (actual_format metadata) ["jpeg"; "jpg"; "png"; "webp"] /\
    (forall wd, md_width metadata = Some wd -> wd <= 10000) /\
    (forall ht, md_height metadata = Some ht -> ht <= 10000) /\
    buffer_length buf <= MAX_FILE_SIZE w.
Proof.
  intros Hmax Hrun Hvalid. unfold validate in Hrun.
  destruct (sharp_metadata (sharp w) buf) as [e|metadata];
    [inversion Hrun; subst; discriminate Hvalid|].
  inversion Hrun; subst r. clear Hrun. cbn [valid] in Hvalid.
  apply Nat.eqb_eq in Hvalid.
  rewrite check_size_length, check_height_length, check_width_length,
    check_format_length in Hvalid;
    try (intros l Hl; inversion Hl; subst; lia).
  unfold format_not_allowed, exceeded in Hvalid.
  cbn [validate_options opt_field maxWidth maxHeight maxSize allowedFormats
       List.length] in Hvalid.
  exists metadata. split; [reflexivity|].
  destruct (existsb (String.eqb (actual_format metadata))
              ["jpeg"; "jpg"; "png"; "webp"]) eqn:Hfmt;
    [|cbn in Hvalid; lia].
  split.
  { apply existsb_exists in Hfmt. destruct Hfmt as (f & Hin & Heq).
    apply String.eqb_eq in Heq. rewrite Heq. exact Hin. }
  cbn [negb] in Hvalid.
  destruct (MAX_FILE_SIZE w <? buffer_length buf) eqn:Hsize;
    [lia|]. apply Z.ltb_ge in Hsize.
  repeat split; [| |exact Hsize].
  - intros wd Hwd. rewrite Hwd in Hvalid.
    destruct (10000 <? wd) eqn:Hw; [lia|]. apply Z.ltb_ge in Hw. exact Hw.
  - intros ht Hht. rewrite Hht in Hvalid.
    destruct (md_width metadata) as [wd|].
    + destruct (10000 <? wd); destruct (10000 <? ht) eqn:Hh; try lia;
        apply Z.ltb_ge in Hh; exact Hh.
    + destruct (10000 <? ht) eqn:Hh; [lia|]. apply Z.ltb_ge in Hh. exact Hh.
Qed.

Lemma validation_accepts_only_witness :
  exists metadata,
    sharp_metadata Sample.codec Sample.photo = inr metadata /\
    In (actual_format metadata) ["jpeg"; "jpg"; "png"; "webp"] /\
    buffer_length Sample.photo <= 10485760.
Proof.
  destruct (validation_accepts_only
              (Sample.world [] Sample.cloudinary_rows) Sample.photo
              (mkValidation true []))
    as (metadata & Hmd & Hfmt & _ & _ & Hsize).
  - reflexivity.
  - reflexivity.
  - reflexivity.
  - exists metadata. auto.
Defined.
